(** * demo-backend: an Express + Mongoose service over two collections

    Shallow embedding of the route handlers of the server entry point
    (users API and bank API) and of the two Mongoose models
    ([models/User.js], [models/Transaction.js]).

    Conventions of the embedding.
    - A JavaScript number is [Js.number]: [NaN], the two infinities, or a
      finite value, written as the rational it denotes.  The binary64
      numbers are the rationals that [Js.round_number] leaves as they
      are; every operation of the code ([-], [$multiply], [JSON.parse])
      rounds its exact result to the nearest one, ties to even, and
      overflows to an infinity.  [$sum] adds in an extended-precision
      accumulator, as the server does, and rounds once at the end; a
      partial sum out of the range of binary64 is an infinity from then
      on.  The sign of zero is not modelled.
    - A request body is the JSON object sent, a finite map from keys to
      values, read through [express.json()]: a number literal is read as
      the binary64 number nearest to it.  [now] stands for [Date.now()].
    - The document store is explicit state ([db]); a handler is a function
      from the request and the store to an [outcome] and the next store.
      Requests are handled one at a time.
    - A rejected promise that the handler does not catch is the outcome
      [Unhandled]; no structured response is produced.
    - Behaviour of the libraries that is not fixed by this repository is a
      [Variable] of the section [Server]. *)

From Stdlib Require Import ZArith QArith Qcanon Sorting.Sorted.
From stdpp Require Import base numbers strings pretty list gmap.

(** ** JavaScript numbers and values *)

Module Js.

Inductive number :=
| NaN
| PosInf
| NegInf
| Fin (q : Qc).

Definition of_Z (z : Z) : number := Fin (Q2Qc (inject_Z z)).
Definition zero : number := of_Z 0.
Definition minus_one : number := of_Z (-1).

Definition Qcleb (x y : Qc) : bool :=
  match (x ?= y)%Qc with Gt => false | _ => true end.
Definition Qcltb (x y : Qc) : bool :=
  match (x ?= y)%Qc with Lt => true | _ => false end.

(** The exact sum of two numbers, before any rounding. *)
Definition exact_add (a b : number) : number :=
  match a, b with
  | NaN, _ | _, NaN => NaN
  | PosInf, NegInf | NegInf, PosInf => NaN
  | PosInf, _ | _, PosInf => PosInf
  | NegInf, _ | _, NegInf => NegInf
  | Fin x, Fin y => Fin (x + y)%Qc
  end.

(** [-a]; negation is exact. *)
Definition neg (a : number) : number :=
  match a with
  | NaN => NaN
  | PosInf => NegInf
  | NegInf => PosInf
  | Fin x => Fin (- x)%Qc
  end.

(** An infinity scaled by the sign of a finite factor. *)
Definition scale_inf (inf : number) (x : Qc) : number :=
  match (x ?= 0)%Qc with
  | Eq => NaN
  | Gt => inf
  | Lt => neg inf
  end.

(** The exact product of two numbers, before any rounding. *)
Definition exact_mul (a b : number) : number :=
  match a, b with
  | NaN, _ | _, NaN => NaN
  | Fin x, Fin y => Fin (x * y)%Qc
  | Fin x, inf | inf, Fin x => scale_inf inf x
  | PosInf, PosInf | NegInf, NegInf => PosInf
  | PosInf, NegInf | NegInf, PosInf => NegInf
  end.

(** *** Rounding to binary64 *)

(** The integer nearest to [a / b] ([0 <= a], [0 < b]), ties to even. *)
Definition round_div (a b : Z) : Z :=
  let f := (a / b)%Z in
  match (2 * (a mod b) ?= b)%Z with
  | Lt => f
  | Gt => (f + 1)%Z
  | Eq => if Z.even f then f else (f + 1)%Z
  end.

(** Every finite binary64 number is a whole number of quanta of
    [2^-1074], the smallest subnormal. *)
Definition quantum : Z := 2 ^ 1074.

(** The binary64 number nearest to [n / d] ([0 <= n], [0 < d]), in
    quanta.  Below [2^53] quanta every whole number of quanta is a
    binary64 number; above, a number with leading bit [2^b] has 53
    significant bits, so it is a multiple of [2^(b - 52)] quanta. *)
Definition quanta (n d : Z) : Z :=
  let a := (n * quantum)%Z in
  let fl := (a / d)%Z in
  if (fl <? 2 ^ 53)%Z then round_div a d
  else
    let shift := (Z.log2 fl - 52)%Z in
    (round_div a (d * 2 ^ shift) * 2 ^ shift)%Z.

Definition of_quanta (k : Z) : Q := Qmake k (2 ^ 1074)%positive.

(** Rounding of a non-negative rational; [2^2098] quanta are [2^1024],
    where binary64 overflows.  A rational that is a binary64 number is
    returned as it is. *)
Definition round_pos (q : Qc) : number :=
  let k := quanta (Qnum q) (Zpos (Qden q)) in
  if (2 ^ 2098 <=? k)%Z then PosInf
  else if Qeq_bool (of_quanta k) q then Fin q
  else Fin (Q2Qc (of_quanta k)).

(** Round to nearest, ties to even. *)
Definition round_number (a : number) : number :=
  match a with
  | Fin q =>
      match (q ?= 0)%Qc with
      | Lt => neg (round_pos (- q))
      | _ => round_pos q
      end
  | _ => a
  end.

(** The range of binary64: a value that rounds to an infinity is that
    infinity. *)
Definition overflow (a : number) : number :=
  match round_number a with
  | PosInf => PosInf
  | NegInf => NegInf
  | _ => a
  end.

(** [a + b] *)
Definition add (a b : number) : number := round_number (exact_add a b).

(** [a - b] *)
Definition sub (a b : number) : number :=
  round_number (exact_add a (neg b)).

(** [a * b] *)
Definition mul (a b : number) : number := round_number (exact_mul a b).

(** [a <= b]: false as soon as one side is [NaN]. *)
Definition le (a b : number) : bool :=
  match a, b with
  | NaN, _ | _, NaN => false
  | NegInf, _ | _, PosInf => true
  | PosInf, _ | _, NegInf => false
  | Fin x, Fin y => Qcleb x y
  end.

(** [a < b]: false as soon as one side is [NaN]. *)
Definition lt (a b : number) : bool :=
  match a, b with
  | NaN, _ | _, NaN => false
  | PosInf, _ | _, NegInf => false
  | NegInf, _ | _, PosInf => true
  | Fin x, Fin y => Qcltb x y
  end.

(** [a > b] *)
Definition gt (a b : number) : bool := lt b a.

(** [a >= b] *)
Definition ge (a b : number) : bool := le b a.

(** ToBoolean on a number: [0] and [NaN] are falsy. *)
Definition truthy (a : number) : bool :=
  match a with
  | NaN => false
  | PosInf | NegInf => true
  | Fin x => match (x ?= 0)%Qc with Eq => false | _ => true end
  end.

Definition is_finite (a : number) : bool :=
  match a with Fin _ => true | _ => false end.

(** [x?.field || 0], where [x] is [undefined] ([None]) or an object whose
    field holds the number. *)
Definition or_zero (x : option number) : number :=
  match x with
  | Some n => if truthy n then n else zero
  | None => zero
  end.

#[warnings="-register-all"]
Inductive value :=
| VUndefined
| VNull
| VBool (b : bool)
| VNumber (n : number)
| VString (s : string)
| VArray (l : list value)
| VObject (o : gmap string value).

Definition typeof (v : value) : string :=
  match v with
  | VUndefined => "undefined"
  | VBool _ => "boolean"
  | VNumber _ => "number"
  | VString _ => "string"
  | VNull | VArray _ | VObject _ => "object"
  end.

(** What [JSON.parse] makes of a value of the body: a number literal
    becomes the nearest binary64 number ([1e999] becomes [Infinity]). *)
Definition parse (v : value) : value :=
  match v with
  | VNumber n => VNumber (round_number n)
  | _ => v
  end.

(** [o.key] on the parsed body: [undefined] when the key is absent. *)
Definition get (o : gmap string value) (key : string) : value :=
  parse (default VUndefined (o !! key)).

End Js.

Import Js.

(** Identifiers assigned to documents ([_id]). *)
Definition ObjectId := N.

(** ** models/Transaction.js *)

Module Transaction.

Record t := {
  _id : ObjectId;
  type : string;
  amount : number;
  date : nat
}.

(** [enum: ["deposit", "withdrawal"]] *)
Definition enum : list string := ["deposit"; "withdrawal"].

(** Schema validation run by [save()]: [type] is required and in the
    enumeration; [amount] is required and a Number (Mongoose's Number
    caster refuses [NaN] and takes every other number, the infinities
    included). *)
Definition validate (doc : t) : bool :=
  bool_decide (type doc ∈ enum) &&
  match amount doc with NaN => false | _ => true end.

(** [doc.save()]: [None] when the returned promise rejects. *)
Definition save (doc : t) (coll : list t) : option (list t) :=
  if validate doc then Some (coll ++ [doc]) else None.

(** The accumulator of [$sum] starts at 0 and keeps the sum of the values
    it has met in extended precision, within the range of binary64: a
    partial sum out of that range is an infinity from then on. *)
Definition accumulate (l : list number) : number :=
  foldl (λ acc x, overflow (exact_add acc x)) zero l.

(** [$sum]: the binary64 number nearest to the accumulated sum. *)
Definition sum (l : list number) : number := round_number (accumulate l).

(** [{ $match: { type: k } }] *)
Definition match_type (k : string) (coll : list t) : list t :=
  filter (λ doc, type doc = k) coll.

(** [{ $group: { _id: null, f: { $sum: e } } }]: one group holding the
    sum, and no group at all when no document reaches the stage.  The
    result array is represented by its values of [f]. *)
Definition group_sum (e : t → number) (docs : list t) : list number :=
  match docs with
  | [] => []
  | _ => [sum (e <$> docs)]
  end.

(** [{ $cond: [{ $eq: ["$type", "deposit"] }, "$amount",
               { $multiply: ["$amount", -1] }] }] *)
Definition signed (doc : t) : number :=
  if bool_decide (type doc = "deposit") then amount doc
  else mul (amount doc) minus_one.

(** [.sort({ date: -1 })]: newest first, as a stable insertion sort. *)
Fixpoint insert_desc (doc : t) (l : list t) : list t :=
  match l with
  | [] => [doc]
  | d :: l' =>
      if (date d <? date doc)%nat then doc :: l
      else d :: insert_desc doc l'
  end.

Definition sort_date_desc (coll : list t) : list t :=
  foldr insert_desc [] coll.

End Transaction.

(** ** models/User.js *)

Module User.

(** [name] is [None] when the stored field is [null]. *)
Record t := {
  _id : ObjectId;
  name : option string
}.

(** Schema validation run by [save()]: [name] is required; Mongoose's
    required check on a String path also refuses the empty string. *)
Definition validate (doc : t) : bool :=
  match name doc with
  | None => false
  | Some s => negb (bool_decide (s = ""))
  end.

End User.

(** ** The store and the responses *)

Record db := {
  users : gmap ObjectId User.t;
  transactions : list Transaction.t;
  next_id : ObjectId
}.

Definition empty_db : db :=
  {| users := ∅; transactions := []; next_id := 0%N |}.

(** [new Model(...)] draws a fresh [_id]. *)
Definition fresh (s : db) : db :=
  {| users := users s; transactions := transactions s;
     next_id := N.succ (next_id s) |}.

Definition set_transactions (coll : list Transaction.t) (s : db) : db :=
  {| users := users s; transactions := coll; next_id := next_id s |}.

Definition set_users (coll : gmap ObjectId User.t) (s : db) : db :=
  {| users := coll; transactions := transactions s; next_id := next_id s |}.

Inductive payload :=
| Text (s : string)                          (* res.send(s) *)
| Json_error (msg : string)                  (* { error: msg } *)
| Json_message (msg : string)                (* { message: msg } *)
| Json_balance (balance : number)            (* { balance } *)
| Json_user (u : User.t)
| Json_users (us : list User.t)
| Json_transactions (ts : list Transaction.t).

(** What the client gets: a response with its status code, or nothing
    structured when the handler's promise rejects. *)
Inductive outcome :=
| Respond (status : nat) (p : payload)
| Unhandled.

(** ** Bank API: the two balance computations *)

(** The balance of [GET /balance]: two aggregations, one per type. *)
Definition balance (coll : list Transaction.t) : number :=
  let deposits :=
    Transaction.group_sum Transaction.amount
      (Transaction.match_type "deposit" coll) in
  let withdrawals :=
    Transaction.group_sum Transaction.amount
      (Transaction.match_type "withdrawal" coll) in
  let totalDeposits := or_zero (head deposits) in
  let totalWithdrawals := or_zero (head withdrawals) in
  sub totalDeposits totalWithdrawals.

(** The balance of [POST /withdraw]: one aggregation over signed amounts. *)
Definition currentBalance (coll : list Transaction.t) : number :=
  or_zero (head (Transaction.group_sum Transaction.signed coll)).

(** ** Route handlers *)

Section Server.

(** [Number.prototype.toString], used by the template literals. *)
Variable Number_toString : number → string.

(** Mongoose's String caster on a value that is neither a string nor
    [null]/[undefined]: the text it yields, or [None] for a CastError. *)
Variable castString_other : value → option string.

(** Mongoose's String caster: [None] is a CastError, [Some None] a value
    left [null]/[undefined]. *)
Definition castString (v : value) : option (option string) :=
  match v with
  | VUndefined | VNull => Some None
  | VString s => Some (Some s)
  | _ => Some <$> castString_other v
  end.

(** [GET /] *)
Definition get_root (s : db) : outcome * db :=
  (Respond 200 (Text "Welcome to the backend! 🚀"), s).

(** [GET /users] *)
Definition get_users (s : db) : outcome * db :=
  (Respond 200 (Json_users (map_to_list (users s)).*2), s).

(** [GET /users/:id]; [id] is [None] when the path segment does not cast
    to an ObjectId, which makes [findById] reject. *)
Definition get_user (id : option ObjectId) (s : db) : outcome * db :=
  match id with
  | None => (Unhandled, s)
  | Some i =>
      match users s !! i with
      | None => (Respond 404 (Json_error "User not found"), s)
      | Some user => (Respond 200 (Json_user user), s)
      end
  end.

(** [POST /users] *)
Definition post_users (body : gmap string value) (s : db) : outcome * db :=
  let i := next_id s in
  let s := fresh s in
  match castString (get body "name") with
  | None => (Unhandled, s)
  | Some name =>
      let user := {| User._id := i; User.name := name |} in
      if User.validate user
      then (Respond 201 (Json_user user), set_users (<[i := user]> (users s)) s)
      else (Unhandled, s)
  end.

(** [PUT /users/:id]: an [undefined] name is dropped from the update,
    [null] is written as it is; update validators are not run. *)
Definition put_user (id : option ObjectId) (body : gmap string value)
    (s : db) : outcome * db :=
  match id, castString (get body "name") with
  | None, _ | _, None => (Unhandled, s)
  | Some i, Some name =>
      match users s !! i with
      | None => (Respond 404 (Json_error "User not found"), s)
      | Some old =>
          let user :=
            match get body "name" with
            | VUndefined => old
            | _ => {| User._id := i; User.name := name |}
            end in
          (Respond 200 (Json_user user), set_users (<[i := user]> (users s)) s)
      end
  end.

(** [DELETE /users/:id] *)
Definition delete_user (id : option ObjectId) (s : db) : outcome * db :=
  match id with
  | None => (Unhandled, s)
  | Some i =>
      match users s !! i with
      | None => (Respond 404 (Json_error "User not found"), s)
      | Some _ =>
          (Respond 200 (Json_message "User deleted"),
           set_users (delete i (users s)) s)
      end
  end.

(** [GET /balance] *)
Definition get_balance (s : db) : outcome * db :=
  (Respond 200 (Json_balance (balance (transactions s))), s).

(** [POST /deposit]; [now] is the value of [Date.now()]. *)
Definition post_deposit (now : nat) (body : gmap string value) (s : db)
    : outcome * db :=
  match get body "amount" with
  | VNumber amount =>
      if le amount zero
      then (Respond 400 (Json_error "Invalid deposit amount"), s)
      else
        let transaction :=
          {| Transaction._id := next_id s; Transaction.type := "deposit";
             Transaction.amount := amount; Transaction.date := now |} in
        let s := fresh s in
        match Transaction.save transaction (transactions s) with
        | None => (Unhandled, s)
        | Some coll =>
            (Respond 200
               (Json_message ("Deposited $" +:+ Number_toString amount)),
             set_transactions coll s)
        end
  | _ => (Respond 400 (Json_error "Invalid deposit amount"), s)
  end.

(** [POST /withdraw] *)
Definition post_withdraw (now : nat) (body : gmap string value) (s : db)
    : outcome * db :=
  match get body "amount" with
  | VNumber amount =>
      if le amount zero
      then (Respond 400 (Json_error "Invalid withdrawal amount"), s)
      else
        let balance := currentBalance (transactions s) in
        if gt amount balance
        then (Respond 400 (Json_error "Insufficient funds"), s)
        else
          let transaction :=
            {| Transaction._id := next_id s;
               Transaction.type := "withdrawal";
               Transaction.amount := amount; Transaction.date := now |} in
          let s := fresh s in
          match Transaction.save transaction (transactions s) with
          | None => (Unhandled, s)
          | Some coll =>
              (Respond 200
                 (Json_message ("Withdrew $" +:+ Number_toString amount)),
               set_transactions coll s)
          end
  | _ => (Respond 400 (Json_error "Invalid withdrawal amount"), s)
  end.

(** [GET /transactions] *)
Definition get_transactions (s : db) : outcome * db :=
  (Respond 200
     (Json_transactions (Transaction.sort_date_desc (transactions s))), s).

(** [DELETE /transactions] *)
Definition delete_transactions (s : db) : outcome * db :=
  (Respond 200 (Json_message "All transactions cleared."),
   set_transactions [] s).

(** The routes of the application. *)
Inductive request :=
| GET_root
| GET_users
| GET_user (id : option ObjectId)
| POST_users (body : gmap string value)
| PUT_user (id : option ObjectId) (body : gmap string value)
| DELETE_user (id : option ObjectId)
| GET_balance
| POST_deposit (body : gmap string value)
| POST_withdraw (body : gmap string value)
| GET_transactions
| DELETE_transactions.

(** One request handled to completion at time [now]. *)
Definition handle (now : nat) (r : request) (s : db) : outcome * db :=
  match r with
  | GET_root => get_root s
  | GET_users => get_users s
  | GET_user id => get_user id s
  | POST_users body => post_users body s
  | PUT_user id body => put_user id body s
  | DELETE_user id => delete_user id s
  | GET_balance => get_balance s
  | POST_deposit body => post_deposit now body s
  | POST_withdraw body => post_withdraw now body s
  | GET_transactions => get_transactions s
  | DELETE_transactions => delete_transactions s
  end.

(** The stores reachable from the empty one, one request at a time. *)
Inductive reachable : db → Prop :=
| reachable_empty : reachable empty_db
| reachable_handle now r s : reachable s → reachable (handle now r s).2.

End Server.

(** ** Sample requests *)

Module Samples.

Definition amount_body (n : number) : gmap string value :=
  {[ "amount" := VNumber n ]}.

(** A rendering of integral amounts, enough for the samples. *)
Definition show (n : number) : string :=
  match n with
  | NaN => "NaN"
  | PosInf => "Infinity"
  | NegInf => "-Infinity"
  | Fin q => pretty (Qnum q)
  end.

Definition no_cast (_ : value) : option string := None.

Definition run (now : nat) (r : request) (s : db) : outcome * db :=
  handle show no_cast now r s.

Definition after (rs : list request) : db :=
  foldl (λ s r, (run 0 r s).2) empty_db rs.

End Samples.

(** The history left by depositing [Infinity] (the JSON number [1e999])
    and then withdrawing [Infinity]. *)
Definition infinite_history : list Transaction.t :=
  [ {| Transaction._id := 0%N; Transaction.type := "deposit";
       Transaction.amount := PosInf; Transaction.date := 0 |};
    {| Transaction._id := 1%N; Transaction.type := "withdrawal";
       Transaction.amount := PosInf; Transaction.date := 0 |} ].

Definition infinite_requests : list request :=
  [ POST_deposit (Samples.amount_body PosInf);
    POST_withdraw (Samples.amount_body PosInf) ].

(** The store after a deposit of 100. *)
Definition store_100 : db :=
  Samples.after [POST_deposit (Samples.amount_body (of_Z 100))].

(** The store after a deposit of 100 and a withdrawal of 30. *)
Definition store_70 : db :=
  Samples.after [POST_deposit (Samples.amount_body (of_Z 100));
                 POST_withdraw (Samples.amount_body (of_Z 30))].

(** A body that names a user. *)
Definition name_body (name : string) : gmap string value :=
  {[ "name" := VString name ]}.

(** The store after creating the user "Eddie". *)
Definition store_eddie : db :=
  Samples.after [POST_users (name_body "Eddie")].

(** JSON number literals: [decimal n d] is the literal denoting [n / d],
    as in [0.1 = decimal 1 10]. *)
Definition decimal (n : Z) (d : positive) : number := Fin (Q2Qc (n # d)).

Definition deposit_of (n : number) : request :=
  POST_deposit (Samples.amount_body n).

Definition withdraw_of (n : number) : request :=
  POST_withdraw (Samples.amount_body n).



(** The same, followed by a withdrawal of 1.1. *)
Definition store_overdrawn : db :=
  Samples.after [deposit_of (decimal 3 10); withdraw_of (decimal 1 10);
                 deposit_of (decimal 9 10); withdraw_of (decimal 11 10)].

(** ** Vocabulary of the statements *)

(** The data-model invariant: every persisted amount is positive. *)
Definition amounts_positive (coll : list Transaction.t) : Prop :=
  Forall (λ doc, lt zero (Transaction.amount doc) = true) coll.

Definition types_in_enum (coll : list Transaction.t) : Prop :=
  Forall (λ doc, Transaction.type doc ∈ Transaction.enum) coll.

(** A binary64 number: rounding leaves it as it is. *)
Definition is_double (a : number) : Prop := round_number a = a.

(** Every persisted amount is a binary64 number. *)
Definition amounts_double (coll : list Transaction.t) : Prop :=
  Forall (λ doc, is_double (Transaction.amount doc)) coll.

(** The exact sum of the amounts of one type, before any rounding. *)
Fixpoint sum_of_kind (k : string) (coll : list Transaction.t) : number :=
  match coll with
  | [] => zero
  | doc :: rest =>
      if bool_decide (Transaction.type doc = k)
      then exact_add (Transaction.amount doc) (sum_of_kind k rest)
      else sum_of_kind k rest
  end.

(** The balance as the specification words it, in the arithmetic of the
    code: the sum of the amounts of the deposits minus the sum of the
    amounts of the withdrawals, each sum and the difference being a
    binary64 number. *)
Definition spec_balance (coll : list Transaction.t) : number :=
  sub (round_number (sum_of_kind "deposit" coll))
      (round_number (sum_of_kind "withdrawal" coll)).

(** The one-pass wording: the exact sum of the signed amounts. *)
Fixpoint spec_signed_sum (coll : list Transaction.t) : number :=
  match coll with
  | [] => zero
  | doc :: rest =>
      exact_add (if bool_decide (Transaction.type doc = "deposit")
                 then Transaction.amount doc
                 else neg (Transaction.amount doc))
                (spec_signed_sum rest)
  end.

(** A positive whole number. *)
Definition whole (a : number) : Prop := ∃ z : Z, (0 < z)%Z ∧ a = of_Z z.

(** A positive whole number or [Infinity]. *)
Definition whole_or_infinite (a : number) : Prop := whole a ∨ a = PosInf.

(** The exact sum of the finite persisted amounts. *)
Fixpoint finite_total (coll : list Transaction.t) : number :=
  match coll with
  | [] => zero
  | doc :: rest =>
      if is_finite (Transaction.amount doc)
      then exact_add (Transaction.amount doc) (finite_total rest)
      else finite_total rest
  end.

(** The persisted amounts are positive whole numbers that add up to less
    than [2^53]: binary64 arithmetic on them is exact. *)
Definition small_whole_amounts (coll : list Transaction.t) : Prop :=
  Forall (λ doc, whole (Transaction.amount doc)) coll
  ∧ lt (finite_total coll) (of_Z (2 ^ 53)) = true.

(** The same, with [Infinity] allowed among the amounts. *)
Definition small_whole_or_infinite_amounts (coll : list Transaction.t)
  : Prop :=
  Forall (λ doc, whole_or_infinite (Transaction.amount doc)) coll
  ∧ lt (finite_total coll) (of_Z (2 ^ 53)) = true.

(** The whole number a finite value denotes when it is one. *)
Definition int_of (a : number) : Z :=
  match a with
  | Fin q => Qnum q
  | _ => 0%Z
  end.

(** The sum, as an integer, of the finite amounts of the documents kept
    by [f]. *)
Fixpoint zsum (f : Transaction.t → bool) (coll : list Transaction.t) : Z :=
  match coll with
  | [] => 0%Z
  | doc :: rest =>
      if f doc then (int_of (Transaction.amount doc) + zsum f rest)%Z
      else zsum f rest
  end.

Definition zkind (k : string) (coll : list Transaction.t) : Z :=
  zsum (λ doc, bool_decide (Transaction.type doc = k)) coll.

Definition zall (coll : list Transaction.t) : Z := zsum (λ _, true) coll.

(** The sum of the magnitudes of the finite values of a list. *)
Definition magnitude (l : list number) : Z :=
  foldr (λ x s, (Z.abs (int_of x) + s)%Z) 0%Z l.

(** A whole number or an infinity. *)
Definition integral (x : number) : Prop :=
  x = PosInf ∨ x = NegInf ∨ ∃ z : Z, x = of_Z z.

(** [k] quanta make a binary64 number: at most 53 significant bits. *)
Definition double_quanta (k : Z) : Prop :=
  (0 ≤ k)%Z ∧ ((k < 2 ^ 53)%Z ∨ (2 ^ (Z.log2 k - 52) | k)%Z).

(** A positive finite number. *)
Definition positive_finite (v : value) : Prop :=
  ∃ q : Qc, v = VNumber (Fin q) ∧ (0 < q)%Qc.

(** A positive number, finite or not: what the check
    [typeof amount !== "number" || amount <= 0] lets through among the
    values a JSON body can carry ([1e999] parses to [Infinity]; no JSON
    text parses to [NaN]). *)
Definition positive_number (v : value) : Prop :=
  positive_finite v ∨ v = VNumber PosInf.

(** What each route leaves untouched. *)
Definition frame_of (r : request) (s s' : db) : Prop :=
  match r with
  | POST_deposit _ | POST_withdraw _ | DELETE_transactions =>
      users s' = users s
  | POST_users _ | PUT_user _ _ | DELETE_user _ =>
      transactions s' = transactions s
      ∧ balance (transactions s') = balance (transactions s)
  | GET_root | GET_users | GET_user _ | GET_balance | GET_transactions =>
      s' = s
  end.

(** What one request does to the transactions collection: nothing, a
    clear, or one accepted document appended. *)
Inductive transactions_step (coll : list Transaction.t)
  : list Transaction.t → Prop :=
| step_same : transactions_step coll coll
| step_clear : transactions_step coll []
| step_deposit id a now :
    lt zero a = true →
    is_double a →
    transactions_step coll
      (coll ++ [ {| Transaction._id := id; Transaction.type := "deposit";
                    Transaction.amount := a; Transaction.date := now |} ])
| step_withdraw id a now :
    lt zero a = true →
    is_double a →
    gt a (currentBalance coll) = false →
    transactions_step coll
      (coll ++ [ {| Transaction._id := id; Transaction.type := "withdrawal";
                    Transaction.amount := a; Transaction.date := now |} ]).

(** What every reachable transactions collection satisfies. *)
Definition store_invariant (coll : list Transaction.t) : Prop :=
  amounts_positive coll ∧ types_in_enum coll ∧ amounts_double coll.

(** Newest first: no document is older than one listed after it. *)
Definition newest_first (l : list Transaction.t) : Prop :=
  StronglySorted
    (λ a b, (Transaction.date b ≤ Transaction.date a)%nat) l.

(** Each user is stored under its own [_id], which is below the next
    fresh one. *)
Definition users_consistent (s : db) : Prop :=
  ∀ i u, users s !! i = Some u → User._id u = i ∧ (i < next_id s)%N.

(** * Properties *)

(** ** Arithmetic of [Js.number] *)

Section NumberFacts.

Implicit Types a b c : number.
Implicit Types x y : Qc.

Lemma Qcleb_le x y : Qcleb x y = true ↔ (x ≤ y)%Qc.
Proof.
  unfold Qcleb, Qcle, Qccompare. rewrite Qle_alt.
  destruct (x ?= y)%Q; split; congruence.
Qed.

Lemma Qcltb_lt x y : Qcltb x y = true ↔ (x < y)%Qc.
Proof.
  unfold Qcltb, Qclt, Qccompare. rewrite Qlt_alt.
  destruct (x ?= y)%Q; split; congruence.
Qed.

Lemma Qcleb_nle x y : Qcleb x y = false ↔ (y < x)%Qc.
Proof.
  rewrite Qclt_nge, <- Qcleb_le. destruct (Qcleb x y); split; congruence.
Qed.

Lemma Qcltb_nlt x y : Qcltb x y = false ↔ (y ≤ x)%Qc.
Proof.
  rewrite Qcle_ngt, <- Qcltb_lt. destruct (Qcltb x y); split; congruence.
Qed.

Lemma exact_add_comm a b : exact_add a b = exact_add b a.
Proof. destruct a, b; simpl; try reflexivity. f_equal. apply Qcplus_comm. Qed.

Lemma exact_add_assoc a b c :
  exact_add a (exact_add b c) = exact_add (exact_add a b) c.
Proof.
  destruct a, b, c; simpl; try reflexivity. f_equal. apply Qcplus_assoc.
Qed.

Lemma exact_add_swap a b c :
  exact_add a (exact_add b c) = exact_add b (exact_add a c).
Proof. rewrite !exact_add_assoc, (exact_add_comm a b). reflexivity. Qed.

Lemma exact_add_zero_l a : exact_add zero a = a.
Proof. destruct a; simpl; try reflexivity. f_equal. apply Qcplus_0_l. Qed.

Lemma exact_add_zero_r a : exact_add a zero = a.
Proof. rewrite exact_add_comm. apply exact_add_zero_l. Qed.

Lemma neg_exact_add a b :
  neg (exact_add a b) = exact_add (neg a) (neg b).
Proof.
  destruct a, b; try reflexivity. cbn [exact_add neg]. f_equal. ring.
Qed.

Lemma neg_zero : neg zero = zero.
Proof. reflexivity. Qed.

Lemma exact_mul_minus_one a : exact_mul a minus_one = neg a.
Proof.
  destruct a; try reflexivity. unfold minus_one, of_Z. cbn [exact_mul neg].
  f_equal. apply Qc_is_canon. simpl. rewrite !Qred_correct. ring.
Qed.

(** [x || 0] only replaces [NaN]: a falsy finite number is [0] already. *)
Lemma or_zero_Some a :
  or_zero (Some a) = match a with NaN => zero | _ => a end.
Proof.
  destruct a; simpl; try reflexivity.
  destruct (q ?= 0)%Qc eqn:E; try reflexivity.
  apply Qceq_alt in E. subst q. reflexivity.
Qed.

Lemma or_zero_not_nan a : a ≠ NaN → or_zero (Some a) = a.
Proof. rewrite or_zero_Some. destruct a; congruence. Qed.

Lemma lt_zero_not_le a : lt zero a = true → le a zero = false.
Proof.
  destruct a; simpl; try congruence.
  rewrite Qcltb_lt, Qcleb_nle. trivial.
Qed.

Lemma not_le_zero a : le a zero = false → a = NaN ∨ lt zero a = true.
Proof.
  destruct a; simpl; auto; try congruence.
  rewrite Qcltb_lt, Qcleb_nle. auto.
Qed.

Lemma le_not_gt a b : le a b = true → gt a b = false.
Proof.
  unfold gt. destruct a, b; simpl; try congruence.
  rewrite Qcleb_le, Qcltb_nlt. trivial.
Qed.

Lemma lt_zero_not_nan a : lt zero a = true → a ≠ NaN.
Proof. destruct a; simpl; congruence. Qed.

Lemma le_zero_not_nan a : le zero a = true → a ≠ NaN.
Proof. destruct a; simpl; congruence. Qed.

Lemma lt_zero_le a : lt zero a = true → le zero a = true.
Proof.
  destruct a; simpl; try congruence.
  rewrite Qcltb_lt, Qcleb_le. apply Qclt_le_weak.
Qed.

Lemma le_zero_exact_add a b :
  le zero a = true → le zero b = true → le zero (exact_add a b) = true.
Proof.
  destruct a, b; simpl; try congruence.
  rewrite !Qcleb_le. apply Qcplus_nonneg_nonneg.
Qed.


End NumberFacts.

(** ** Rounding to binary64 *)

Section Rounding.

Local Open Scope Z_scope.


Lemma round_div_exact (k b : Z) : 0 < b → round_div (k * b) b = k.
Proof.
  intros Hb. unfold round_div.
  rewrite Z.div_mul, Z.mod_mul by lia.
  destruct (2 * 0 ?= b) eqn:E; try reflexivity.
  - apply Z.compare_eq in E. lia.
  - apply Z.compare_gt_iff in E. lia.
Qed.

Lemma round_div_bounds (a b lo hi : Z) :
  0 < b → lo * b ≤ a → a < hi * b → lo ≤ round_div a b ≤ hi.
Proof.
  intros Hb Hlo Hhi. unfold round_div.
  assert (lo ≤ a / b) by (apply Z.div_le_lower_bound; lia).
  assert (a / b < hi) by (apply Z.div_lt_upper_bound; lia).
  destruct (2 * (a mod b) ?= b); [destruct (Z.even (a / b))|..]; lia.
Qed.

Lemma quanta_exact (n d k : Z) :
  0 < d → n * quantum = k * d → double_quanta k → quanta n d = k.
Proof.
  intros Hd Heq [Hk Hdbl]. unfold quanta. rewrite Heq, Z.div_mul by lia.
  destruct (k <? 2 ^ 53) eqn:Hlt.
  - apply round_div_exact, Hd.
  - apply Z.ltb_ge in Hlt. destruct Hdbl as [?|[m Hm]]; [lia|].
    assert (53 ≤ Z.log2 k) by (apply Z.log2_le_pow2; lia).
    set (shift := Z.log2 k - 52) in *.
    assert (0 < 2 ^ shift) by (apply Z.pow_pos_nonneg; lia).
    rewrite Hm at 1.
    replace (m * 2 ^ shift * d) with (m * (d * 2 ^ shift)) by ring.
    rewrite round_div_exact by lia. lia.
Qed.

Lemma quanta_double (n d : Z) :
  0 < d → 0 ≤ n → double_quanta (quanta n d).
Proof.
  intros Hd Hn. unfold quanta.
  assert (0 < quantum) as HQ by (unfold quantum; apply Z.pow_pos_nonneg; lia).
  set (a := n * quantum). assert (0 ≤ a) as Ha by (subst a; lia).
  pose proof (Z.mul_div_le a d Hd) as Hfl1.
  pose proof (Z.mul_succ_div_gt a d Hd) as Hfl2.
  assert (0 ≤ a / d) as Hfl0 by (apply Z.div_pos; lia).
  destruct (a / d <? 2 ^ 53) eqn:Hlt.
  - apply Z.ltb_lt in Hlt.
    destruct (round_div_bounds a d (a / d) (a / d + 1) Hd) as [H1 H2];
      [lia|lia|].
    split; [lia|].
    destruct (Z.eq_dec (round_div a d) (2 ^ 53)) as [->|Hne]; [|left; lia].
    right. rewrite Z.log2_pow2 by lia. exists (2 ^ 52). reflexivity.
  - apply Z.ltb_ge in Hlt.
    set (fl := a / d) in *.
    assert (0 < fl) as Hflpos by lia.
    destruct (Z.log2_spec fl Hflpos) as [Hb1 Hb2].
    assert (53 ≤ Z.log2 fl) as Hb by (apply Z.log2_le_pow2; lia).
    set (shift := Z.log2 fl - 52) in *.
    assert (0 < 2 ^ shift) as Hs by (apply Z.pow_pos_nonneg; lia).
    assert (2 ^ Z.log2 fl = 2 ^ 52 * 2 ^ shift) as Hpow.
    { rewrite <- Z.pow_add_r by lia. f_equal. lia. }
    assert (2 ^ Z.succ (Z.log2 fl) = 2 ^ 53 * 2 ^ shift) as Hpow'.
    { rewrite <- Z.pow_add_r by lia. f_equal. lia. }
    destruct (round_div_bounds a (d * 2 ^ shift) (2 ^ 52) (2 ^ 53))
      as [Hm1 Hm2]; [nia|nia|nia|].
    set (m := round_div a (d * 2 ^ shift)) in *.
    split; [nia|]. right.
    rewrite Z.log2_mul_pow2 by lia.
    destruct (Z.eq_dec m (2 ^ 53)) as [->|Hne].
    + rewrite Z.log2_pow2 by lia.
      replace (shift + 53 - 52) with (shift + 1) by lia.
      exists (2 ^ 52). rewrite Z.pow_add_r by lia. lia.
    + assert (Z.log2 m = 52) as ->.
      { apply Z.log2_unique; lia. }
      replace (shift + 52 - 52) with shift by lia.
      exists m. reflexivity.
Qed.

Lemma quantum_pos : 0 < quantum.
Proof. unfold quantum. apply Z.pow_pos_nonneg; lia. Qed.

Lemma quantum_den : Z.pos (2 ^ 1074)%positive = quantum.
Proof. unfold quantum. rewrite Pos2Z.inj_pow. reflexivity. Qed.

Lemma Qc_nonneg_num (q : Qc) : (0 ≤ q)%Qc → 0 ≤ Qnum q.
Proof. unfold Qcle, Qle. simpl. lia. Qed.

Lemma of_quanta_eq (k : Z) (q : Qc) :
  of_quanta k == q ↔ Qnum q * quantum = k * Z.pos (Qden q).
Proof.
  unfold Qeq, of_quanta. cbn [Qnum Qden]. rewrite quantum_den. lia.
Qed.

Lemma Qle_0_of_quanta (k : Z) : 0 ≤ k → (0 <= of_quanta k)%Q.
Proof. intros Hk. unfold Qle, of_quanta. cbn [Qnum Qden]. lia. Qed.

Lemma round_pos_stable (q : Qc) (k : Z) :
  of_quanta k == q → double_quanta k → k < 2 ^ 2098 →
  round_pos q = Fin q.
Proof.
  intros Heq Hk Hlt. unfold round_pos.
  rewrite (quanta_exact (Qnum q) (Z.pos (Qden q)) k);
    [|lia|apply of_quanta_eq, Heq|exact Hk].
  destruct (2 ^ 2098 <=? k) eqn:Hov; [apply Z.leb_le in Hov; lia|].
  apply Qeq_bool_iff in Heq. rewrite Heq. reflexivity.
Qed.

(** What rounding a non-negative rational gives: [Infinity], or a
    non-negative rational that rounding leaves as it is. *)
Lemma round_pos_cases (q : Qc) :
  (0 ≤ q)%Qc →
  round_pos q = PosInf
  ∨ ∃ q' : Qc, round_pos q = Fin q' ∧ (0 ≤ q')%Qc ∧ round_pos q' = Fin q'.
Proof.
  intros Hq.
  pose proof (quanta_double (Qnum q) (Z.pos (Qden q)) ltac:(lia)
                (Qc_nonneg_num q Hq)) as Hk.
  unfold round_pos at 1 2.
  set (k := quanta (Qnum q) (Z.pos (Qden q))) in *.
  destruct (2 ^ 2098 <=? k) eqn:Hov; [left; reflexivity|right].
  apply Z.leb_gt in Hov.
  destruct (Qeq_bool (of_quanta k) q) eqn:Heq.
  - exists q. split; [reflexivity|]. split; [exact Hq|].
    apply Qeq_bool_iff in Heq. apply (round_pos_stable q k); assumption.
  - exists (Q2Qc (of_quanta k)). split; [reflexivity|]. split.
    + unfold Qcle. cbn [this Q2Qc]. rewrite !Qred_correct.
      apply Qle_0_of_quanta. destruct Hk. assumption.
    + apply (round_pos_stable _ k); [|exact Hk|exact Hov].
      cbn [this Q2Qc]. symmetry. apply Qred_correct.
Qed.

Lemma round_pos_zero : round_pos 0%Qc = Fin 0%Qc.
Proof. vm_compute. reflexivity. Qed.

Lemma Qcopp_zero : (- 0)%Qc = 0%Qc.
Proof. apply Qc_is_canon. reflexivity. Qed.

Lemma Qcopp_lt_compat (p q : Qc) : (p < q)%Qc → (- q < - p)%Qc.
Proof.
  intros Hlt. apply Qclt_nge. intros H. apply Qcopp_le_compat in H.
  rewrite !Qcopp_involutive in H. apply Qclt_nge in Hlt. contradiction.
Qed.

Lemma Qcopp_neg_pos (q : Qc) : (q < 0)%Qc → (0 < - q)%Qc.
Proof. intros H. apply Qcopp_lt_compat in H. rewrite Qcopp_zero in H. exact H. Qed.

Lemma Qcopp_pos_neg (q : Qc) : (0 < q)%Qc → (- q < 0)%Qc.
Proof. intros H. apply Qcopp_lt_compat in H. rewrite Qcopp_zero in H. exact H. Qed.

Lemma Qc_compare_opp_Lt (q : Qc) : (q ?= 0)%Qc = Lt → (0 ≤ - q)%Qc.
Proof.
  intros H. apply Qclt_alt in H. apply Qclt_le_weak, Qcopp_neg_pos, H.
Qed.

Lemma Qc_compare_nonneg (q : Qc) : (q ?= 0)%Qc ≠ Lt → (0 ≤ q)%Qc.
Proof.
  intros H. apply Qcnot_lt_le. intros Hlt. apply Qclt_alt in Hlt. auto.
Qed.

Lemma round_number_fixed_nonneg (q : Qc) :
  (0 ≤ q)%Qc → round_pos q = Fin q → round_number (Fin q) = Fin q.
Proof.
  intros Hq Hst. unfold round_number.
  destruct (q ?= 0)%Qc eqn:E; try exact Hst.
  apply Qclt_alt in E. apply Qcle_not_lt in Hq. contradiction.
Qed.

Lemma round_number_neg_fixed (q : Qc) :
  (0 ≤ q)%Qc → round_pos q = Fin q → round_number (Fin (- q)) = Fin (- q).
Proof.
  intros Hq Hst. unfold round_number.
  destruct (- q ?= 0)%Qc eqn:E.
  - apply Qceq_alt in E. rewrite E. apply round_pos_zero.
  - rewrite Qcopp_involutive, Hst. reflexivity.
  - apply Qcgt_alt in E. exfalso.
    apply Qcopp_pos_neg in E. rewrite Qcopp_involutive in E.
    apply Qcle_not_lt in Hq. apply Hq. exact E.
Qed.

(** What rounding gives: an infinity, or a rational that rounding leaves
    as it is (a binary64 number). *)
Lemma round_number_cases (q : Qc) :
  round_number (Fin q) = PosInf ∨ round_number (Fin q) = NegInf
  ∨ ∃ q' : Qc, round_number (Fin q) = Fin q'
               ∧ round_number (Fin q') = Fin q'.
Proof.
  unfold round_number at 1 2 3.
  destruct (q ?= 0)%Qc eqn:E.
  - destruct (round_pos_cases q) as [->|(q' & -> & Hq' & Hst)];
      [apply Qc_compare_nonneg; congruence|auto|].
    right. right. exists q'. split; [reflexivity|].
    apply round_number_fixed_nonneg; assumption.
  - destruct (round_pos_cases (- q)) as [->|(q' & -> & Hq' & Hst)];
      [apply Qc_compare_opp_Lt, E|auto|].
    right. right. exists (- q')%Qc. split; [reflexivity|].
    apply round_number_neg_fixed; assumption.
  - destruct (round_pos_cases q) as [->|(q' & -> & Hq' & Hst)];
      [apply Qc_compare_nonneg; congruence|auto|].
    right. right. exists q'. split; [reflexivity|].
    apply round_number_fixed_nonneg; assumption.
Qed.

(** Rounding is idempotent: its results are binary64 numbers. *)
Lemma round_number_idem (a : number) :
  round_number (round_number a) = round_number a.
Proof.
  destruct a as [| | |q]; try reflexivity.
  destruct (round_number_cases q) as [->|[->|(q' & -> & Hq')]];
    try reflexivity. exact Hq'.
Qed.

Lemma neg_involutive (a : number) : neg (neg a) = a.
Proof. destruct a; cbn; try reflexivity. rewrite Qcopp_involutive. reflexivity. Qed.

Lemma Qccompare_opp_zero (q : Qc) :
  (- q ?= 0)%Qc = CompOpp (q ?= 0)%Qc.
Proof.
  destruct (q ?= 0)%Qc eqn:E; cbn [CompOpp].
  - apply Qceq_alt in E. subst q. rewrite Qcopp_zero. reflexivity.
  - apply Qcgt_alt, Qcopp_neg_pos, Qclt_alt, E.
  - apply Qclt_alt, Qcopp_pos_neg, Qcgt_alt, E.
Qed.

(** Rounding commutes with negation (round to nearest, ties to even, is
    symmetric). *)
Lemma round_number_neg (a : number) :
  round_number (neg a) = neg (round_number a).
Proof.
  destruct a as [| | |q]; try reflexivity.
  cbn [neg]. unfold round_number. rewrite Qccompare_opp_zero.
  destruct (q ?= 0)%Qc eqn:E; cbn [CompOpp].
  - apply Qceq_alt in E. subst q. rewrite Qcopp_zero, round_pos_zero.
    cbn [neg]. rewrite Qcopp_zero. reflexivity.
  - rewrite neg_involutive. reflexivity.
  - rewrite Qcopp_involutive. reflexivity.
Qed.

Lemma round_number_not_nan (a : number) : a ≠ NaN → round_number a ≠ NaN.
Proof.
  destruct a as [| | |q]; try done. intros _. unfold round_number, round_pos.
  repeat case_match; try done; cbn; repeat case_match; done.
Qed.

Lemma this_of_Z (z : Z) : this (Q2Qc (inject_Z z)) = inject_Z z.
Proof. cbn. apply inject_Z_Qred. Qed.

Lemma Qc_of_Z_nonneg (z : Z) : 0 ≤ z → (0 ≤ Q2Qc (inject_Z z))%Qc.
Proof.
  intros Hz. unfold Qcle. rewrite this_of_Z.
  change (this 0%Qc) with (Qred 0). rewrite Qred_correct.
  unfold Qle. cbn [Qnum Qden inject_Z]. lia.
Qed.

Lemma double_quanta_int (z : Z) :
  0 ≤ z < 2 ^ 53 → double_quanta (z * quantum) ∧ z * quantum < 2 ^ 2098.
Proof.
  intros [Hz0 Hz]. pose proof quantum_pos as HQ. split; [split; [lia|]|].
  - destruct (Z.eq_dec z 0) as [->|Hne]; [left; lia|right].
    unfold quantum. rewrite Z.log2_mul_pow2 by lia.
    assert (Z.log2 z < 53) by (apply Z.log2_lt_pow2; lia).
    pose proof (Z.log2_nonneg z).
    exists (z * 2 ^ (52 - Z.log2 z)).
    rewrite <- Z.mul_assoc, <- Z.pow_add_r by lia. do 2 f_equal. lia.
  - unfold quantum.
    replace 2098 with (1024 + 1074) by reflexivity.
    rewrite Z.pow_add_r by lia.
    apply Z.mul_lt_mono_pos_r; [apply Z.pow_pos_nonneg; lia|].
    assert (2 ^ 53 ≤ 2 ^ 1024) by (apply Z.pow_le_mono_r; lia). lia.
Qed.

Lemma round_pos_of_Z (z : Z) :
  0 ≤ z < 2 ^ 53 → round_pos (Q2Qc (inject_Z z)) = Fin (Q2Qc (inject_Z z)).
Proof.
  intros Hz. destruct (double_quanta_int z Hz) as [Hd Hlt].
  apply (round_pos_stable _ (z * quantum)); [|exact Hd|exact Hlt].
  apply of_quanta_eq. rewrite this_of_Z. cbn. lia.
Qed.

Lemma neg_of_Z (z : Z) : neg (of_Z z) = of_Z (- z).
Proof.
  unfold of_Z. cbn [neg]. f_equal. apply Qc_is_canon.
  cbn [this Qcopp Q2Qc]. rewrite !Qred_correct. rewrite inject_Z_opp.
  reflexivity.
Qed.

(** Integers below [2^53] in absolute value are binary64 numbers. *)
Lemma round_number_of_Z (z : Z) :
  - 2 ^ 53 < z < 2 ^ 53 → round_number (of_Z z) = of_Z z.
Proof.
  intros Hz. destruct (Z.le_gt_cases 0 z) as [Hpos|Hneg].
  - apply round_number_fixed_nonneg; [|apply round_pos_of_Z; lia].
    apply Qc_of_Z_nonneg, Hpos.
  - replace z with (- - z) by lia. rewrite <- neg_of_Z, round_number_neg.
    f_equal. apply round_number_fixed_nonneg; [|apply round_pos_of_Z; lia].
    apply Qc_of_Z_nonneg. lia.
Qed.

Lemma round_number_zero : round_number zero = zero.
Proof. vm_compute. reflexivity. Qed.

Lemma mul_minus_one (a : number) : mul a minus_one = neg (round_number a).
Proof. unfold mul. rewrite exact_mul_minus_one. apply round_number_neg. Qed.

(** What [JSON.parse] hands over is a binary64 number. *)
Lemma get_number_double (body : gmap string value) (key : string)
    (n : number) :
  get body key = VNumber n → is_double n.
Proof.
  unfold get, parse. destruct (default VUndefined (body !! key));
    try discriminate.
  intros [= <-]. apply round_number_idem.
Qed.

(** *** Whole numbers *)

Lemma exact_add_of_Z (z1 z2 : Z) :
  exact_add (of_Z z1) (of_Z z2) = of_Z (z1 + z2).
Proof.
  unfold of_Z. cbn [exact_add]. f_equal. apply Qc_is_canon.
  cbn [this Qcplus Q2Qc]. rewrite !Qred_correct, inject_Z_plus.
  reflexivity.
Qed.

Lemma Qcompare_of_Z (z1 z2 : Z) :
  (Q2Qc (inject_Z z1) ?= Q2Qc (inject_Z z2))%Qc = (z1 ?= z2).
Proof.
  unfold Qccompare. rewrite !this_of_Z. unfold Qcompare, inject_Z.
  cbn [Qnum Qden]. rewrite !Z.mul_1_r. reflexivity.
Qed.

Lemma lt_of_Z (z1 z2 : Z) : lt (of_Z z1) (of_Z z2) = (z1 <? z2).
Proof.
  unfold of_Z. cbn [lt]. unfold Qcltb. rewrite Qcompare_of_Z.
  unfold Z.ltb. reflexivity.
Qed.

Lemma le_of_Z (z1 z2 : Z) : le (of_Z z1) (of_Z z2) = (z1 <=? z2).
Proof.
  unfold of_Z. cbn [le]. unfold Qcleb. rewrite Qcompare_of_Z.
  unfold Z.leb. reflexivity.
Qed.

Lemma int_of_of_Z (z : Z) : int_of (of_Z z) = z.
Proof. unfold of_Z, int_of. rewrite this_of_Z. reflexivity. Qed.

Lemma sub_of_Z (z1 z2 : Z) :
  - 2 ^ 53 < z1 - z2 < 2 ^ 53 → sub (of_Z z1) (of_Z z2) = of_Z (z1 - z2).
Proof.
  intros Hz. unfold sub. rewrite neg_of_Z, exact_add_of_Z.
  apply round_number_of_Z. lia.
Qed.

Lemma add_of_Z (z1 z2 : Z) :
  - 2 ^ 53 < z1 + z2 < 2 ^ 53 → add (of_Z z1) (of_Z z2) = of_Z (z1 + z2).
Proof.
  intros Hz. unfold add. rewrite exact_add_of_Z.
  apply round_number_of_Z. lia.
Qed.

Lemma or_zero_of_Z (z : Z) : or_zero (Some (of_Z z)) = of_Z z.
Proof. apply or_zero_not_nan. discriminate. Qed.

Lemma whole_int_of (a : number) :
  whole a → a = of_Z (int_of a) ∧ 0 < int_of a.
Proof. intros (z & Hz & ->). rewrite int_of_of_Z. auto. Qed.

(** Rounding to nearest, ties to even, reaches an even [M] exactly from
    [M - 1/2] on. *)
Lemma round_div_ge (a b M : Z) :
  0 < b → Z.even M = true →
  M ≤ round_div a b ↔ (2 * M - 1) * b ≤ 2 * a.
Proof.
  intros Hb HM. unfold round_div.
  pose proof (Z.div_mod a b ltac:(lia)) as Hdm.
  pose proof (Z.mod_pos_bound a b Hb) as Hr.
  set (f := a / b) in *. set (r := a mod b) in *.
  assert (Z.even f = true → f ≠ M - 1) as Hodd.
  { intros Hf ->. rewrite Z.even_sub in Hf. rewrite HM in Hf. discriminate. }
  assert (M ≤ f → (2 * M - 1) * b ≤ 2 * a) as Hup.
  { intros H. assert (M * b ≤ f * b) by (apply Z.mul_le_mono_nonneg_r; lia).
    lia. }
  assert (f + 1 < M → ¬ (2 * M - 1) * b ≤ 2 * a) as Hdown.
  { intros H. assert ((f + 2) * b ≤ M * b)
      by (apply Z.mul_le_mono_nonneg_r; lia). lia. }
  assert (f + 1 = M → (2 * M - 1) * b ≤ 2 * a ↔ b ≤ 2 * r) as Hmid.
  { intros <-. split; intros H; lia. }
  destruct (Z.lt_trichotomy (f + 1) M) as [Hc|[Hc|Hc]].
  - specialize (Hdown Hc).
    destruct (2 * r ?= b); [destruct (Z.even f)|..]; split; intros H; lia.
  - specialize (Hmid Hc). rewrite Hmid.
    destruct (Z.compare_spec (2 * r) b) as [E|E|E].
    + destruct (Z.even f) eqn:Hf.
      * exfalso. apply (Hodd eq_refl). lia.
      * split; intros H; lia.
    + split; intros H; lia.
    + split; intros H; lia.
  - assert (M ≤ f) as Hc' by lia. specialize (Hup Hc').
    destruct (2 * r ?= b); [destruct (Z.even f)|..]; split; intros H; lia.
Qed.

(** Binary64 overflows from [2^1024 - 2^970] on: in quanta,
    [(2^54 - 1) * 2^2044]. *)
Lemma quanta_overflow (n d : Z) :
  0 < d → 0 ≤ n →
  2 ^ 2098 ≤ quanta n d ↔ (2 ^ 54 - 1) * 2 ^ 2044 * d ≤ n * quantum.
Proof.
  intros Hd Hn. unfold quanta.
  pose proof quantum_pos as HQ.
  set (a := n * quantum). assert (0 ≤ a) as Ha by (subst a; lia).
  pose proof (Z.mul_div_le a d Hd) as Hfl1.
  pose proof (Z.mul_succ_div_gt a d Hd) as Hfl2.
  assert (0 ≤ a / d) as Hfl0 by (apply Z.div_pos; lia).
  set (E := 2 ^ 2044).
  assert (0 < E) as HE by (apply Z.pow_pos_nonneg; lia).
  assert (2 ^ 2098 = 2 ^ 54 * E) as H2098.
  { unfold E. rewrite <- Z.pow_add_r by lia. reflexivity. }
  assert (2 ^ 54 = 18014398509481984) as H54 by reflexivity.
  assert (2 ^ 53 = 9007199254740992) as H53 by reflexivity.
  assert (2 ^ 52 = 4503599627370496) as H52 by reflexivity.
  rewrite H2098.
  destruct (a / d <? 2 ^ 53) eqn:Hlt.
  - apply Z.ltb_lt in Hlt.
    destruct (round_div_bounds a d (a / d) (a / d + 1) Hd) as [H1 H2];
      [lia|lia|].
    split; intros H; nia.
  - apply Z.ltb_ge in Hlt.
    set (fl := a / d) in *.
    assert (0 < fl) as Hflpos by lia.
    destruct (Z.log2_spec fl Hflpos) as [Hb1 Hb2].
    assert (53 ≤ Z.log2 fl) as Hb by (apply Z.log2_le_pow2; lia).
    set (L := Z.log2 fl) in *.
    set (shift := L - 52).
    assert (0 < 2 ^ shift) as Hs by (apply Z.pow_pos_nonneg; lia).
    assert (2 ^ L = 2 ^ 52 * 2 ^ shift) as Hpow.
    { rewrite <- Z.pow_add_r by lia. f_equal. lia. }
    assert (2 ^ Z.succ L = 2 ^ 53 * 2 ^ shift) as Hpow'.
    { rewrite <- Z.pow_add_r by lia. f_equal. lia. }
    destruct (round_div_bounds a (d * 2 ^ shift) (2 ^ 52) (2 ^ 53))
      as [Hm1 Hm2]; [nia|nia|nia|].
    destruct (Z.lt_trichotomy L 2097) as [HL|[HL|HL]].
    + (* too small to overflow *)
      assert (2 ^ shift ≤ E) as Hsm
        by (unfold E; apply Z.pow_le_mono_r; lia).
      split; intros H; nia.
    + (* the last binade *)
      assert (2 ^ shift = 2 * E) as Hsh.
      { unfold shift, E. rewrite HL.
        replace (2097 - 52) with (1 + 2044) by reflexivity.
        rewrite Z.pow_add_r by lia. reflexivity. }
      pose proof (round_div_ge a (d * 2 ^ shift) (2 ^ 53)
                    ltac:(nia) eq_refl) as Hge.
      rewrite Hsh in *. split; intros H.
      * assert (2 ^ 53 ≤ round_div a (d * (2 * E))) as H' by nia.
        apply Hge in H'. nia.
      * assert (2 ^ 53 ≤ round_div a (d * (2 * E))) as H'
          by (apply Hge; nia).
        nia.
    + (* beyond the range *)
      assert (4 * E ≤ 2 ^ shift) as Hbig.
      { unfold E. change 4 with (2 ^ 2). rewrite <- Z.pow_add_r by lia.
        apply Z.pow_le_mono_r; lia. }
      split; intros H; nia.
Qed.

(** *** Overflow *)

Lemma round_pos_inf (q : Qc) :
  round_pos q = PosInf ↔ 2 ^ 2098 ≤ quanta (Qnum q) (Z.pos (Qden q)).
Proof.
  unfold round_pos.
  destruct (2 ^ 2098 <=? quanta (Qnum q) (Z.pos (Qden q))) eqn:E.
  - apply Z.leb_le in E. split; auto.
  - apply Z.leb_gt in E. split; [|lia].
    destruct (Qeq_bool _ _); discriminate.
Qed.

Lemma round_pos_overflow (q : Qc) :
  (0 ≤ q)%Qc →
  round_pos q = PosInf
  ↔ (2 ^ 54 - 1) * 2 ^ 2044 * Z.pos (Qden q) ≤ Qnum q * quantum.
Proof.
  intros Hq. rewrite round_pos_inf.
  apply quanta_overflow; [lia|apply Qc_nonneg_num, Hq].
Qed.

(** Overflow is monotone. *)
Lemma round_pos_overflow_mono (q q' : Qc) :
  (0 ≤ q)%Qc → (q ≤ q')%Qc →
  round_pos q = PosInf → round_pos q' = PosInf.
Proof.
  intros Hq Hle.
  assert (0 ≤ q')%Qc as Hq' by (eapply Qcle_trans; eassumption).
  rewrite !round_pos_overflow by assumption.
  unfold Qcle, Qle in Hle.
  pose proof quantum_pos as HQ.
  generalize dependent quantum. intros Q HQ.
  generalize ((2 ^ 54 - 1) * 2 ^ 2044). intros T HT.
  assert (T * Z.pos (Qden q') * Z.pos (Qden q)
          ≤ Qnum q' * Q * Z.pos (Qden q)) as H; [|nia].
  transitivity (Qnum q * Z.pos (Qden q') * Q); [nia|].
  replace (Qnum q' * Q * Z.pos (Qden q))
    with (Qnum q' * Z.pos (Qden q) * Q) by ring.
  apply Z.mul_le_mono_nonneg_r; lia.
Qed.

Lemma round_number_nonneg (q : Qc) :
  (0 ≤ q)%Qc → round_number (Fin q) = round_pos q.
Proof.
  intros Hq. unfold round_number.
  destruct (q ?= 0)%Qc eqn:E; try reflexivity.
  apply Qclt_alt in E. apply Qcle_not_lt in Hq. contradiction.
Qed.

Lemma round_number_overflow_mono (a b : number) :
  le zero a = true → le a b = true →
  round_number a = PosInf → round_number b = PosInf.
Proof.
  destruct a as [| | |q], b as [| | |q']; try discriminate; try reflexivity.
  cbn [le]. intros Hq Hle. apply Qcleb_le in Hq, Hle.
  rewrite !round_number_nonneg
    by (assumption || eapply Qcle_trans; eassumption).
  apply round_pos_overflow_mono; assumption.
Qed.

(** A value that is not negative is left as it is, or overflows to
    [Infinity]. *)
Lemma overflow_nonneg (a : number) :
  le zero a = true →
  overflow a = a ∨ (overflow a = PosInf ∧ round_number a = PosInf).
Proof.
  destruct a as [| | |q]; try discriminate; [left; reflexivity|].
  cbn [le]. intros Hq. apply Qcleb_le in Hq. unfold overflow.
  rewrite round_number_nonneg by exact Hq.
  destruct (round_pos_cases q Hq) as [->|(q' & -> & _)]; auto.
Qed.

Lemma overflow_of_Z (z : Z) : Z.abs z < 2 ^ 1023 → overflow (of_Z z) = of_Z z.
Proof.
  assert (∀ v, 0 ≤ v < 2 ^ 1023 → ∃ q, round_number (of_Z v) = Fin q) as Hfin.
  { intros v Hv. unfold of_Z.
    pose proof (Qc_of_Z_nonneg v ltac:(lia)) as Hq.
    rewrite round_number_nonneg by exact Hq.
    destruct (round_pos_cases _ Hq) as [Hinf|(q' & -> & _)]; [|eauto].
    exfalso. apply round_pos_overflow in Hinf; [|exact Hq].
    rewrite this_of_Z in Hinf. cbn [Qnum Qden inject_Z] in Hinf.
    unfold quantum in Hinf.
    assert (v * 2 ^ 1074 < 2 ^ 1023 * 2 ^ 1074)
      by (apply Z.mul_lt_mono_pos_r; [apply Z.pow_pos_nonneg|]; lia).
    rewrite <- Z.pow_add_r in H by lia.
    assert (2 ^ (1023 + 1074) = 2 ^ 53 * 2 ^ 2044) as Heq
      by (rewrite <- Z.pow_add_r by lia; reflexivity).
    assert (0 < 2 ^ 2044) by (apply Z.pow_pos_nonneg; lia).
    assert (2 ^ 54 = 2 * 2 ^ 53) as H54 by reflexivity.
    assert (0 < 2 ^ 53) by (apply Z.pow_pos_nonneg; lia).
    nia. }
  intros Hz. unfold overflow. destruct (Z.le_gt_cases 0 z) as [Hpos|Hneg].
  - destruct (Hfin z) as [q ->]; [lia|reflexivity].
  - replace z with (- - z) by lia.
    rewrite <- neg_of_Z, round_number_neg.
    destruct (Hfin (- z)) as [q ->]; [lia|reflexivity].
Qed.

End Rounding.

(** ** Sums over the transaction collection *)

Section SumFacts.

Implicit Types a b : number.
Implicit Types coll docs : list Transaction.t.

Lemma foldl_exact_add a (l : list number) :
  foldl exact_add a l = exact_add a (foldl exact_add zero l).
Proof.
  revert a. induction l as [|x l IH]; intros a; cbn [foldl].
  - symmetry. apply exact_add_zero_r.
  - rewrite IH, (IH (exact_add zero x)), exact_add_zero_l. symmetry.
    apply exact_add_assoc.
Qed.

Lemma foldl_exact_add_cons a (l : list number) :
  foldl exact_add zero (a :: l) = exact_add a (foldl exact_add zero l).
Proof.
  cbn [foldl]. rewrite foldl_exact_add, exact_add_zero_l. reflexivity.
Qed.

Lemma exact_match_type k coll :
  foldl exact_add zero
    (Transaction.amount <$> Transaction.match_type k coll)
  = sum_of_kind k coll.
Proof.
  unfold Transaction.match_type.
  induction coll as [|doc rest IH]; [reflexivity|].
  cbn [sum_of_kind]. case_bool_decide as Hk.
  - rewrite filter_cons_True by exact Hk.
    rewrite fmap_cons, foldl_exact_add_cons, IH. reflexivity.
  - rewrite filter_cons_False by exact Hk. exact IH.
Qed.

(** On a binary64 amount, [$multiply] by [-1] is exact. *)
Lemma signed_double (doc : Transaction.t) :
  is_double (Transaction.amount doc) →
  Transaction.signed doc
  = if bool_decide (Transaction.type doc = "deposit")
    then Transaction.amount doc
    else neg (Transaction.amount doc).
Proof.
  intros Hd. unfold Transaction.signed. case_bool_decide; [reflexivity|].
  rewrite mul_minus_one, Hd. reflexivity.
Qed.

Lemma exact_signed coll :
  amounts_double coll →
  foldl exact_add zero (Transaction.signed <$> coll) = spec_signed_sum coll.
Proof.
  induction 1 as [|doc rest Hdoc _ IH]; [reflexivity|].
  rewrite fmap_cons, foldl_exact_add_cons, IH, signed_double by exact Hdoc.
  reflexivity.
Qed.

(** *** The range of the accumulator *)

Lemma le_exact_add_r a b :
  le zero a = true → le zero b = true → le a (exact_add a b) = true.
Proof.
  destruct a as [| | |x], b as [| | |y]; simpl; try discriminate;
    try reflexivity.
  rewrite !Qcleb_le. intros Hx Hy.
  rewrite <- (Qcplus_0_r x) at 1. apply Qcplus_le_compat; [|exact Hy].
  apply Qcle_refl.
Qed.

(** Over values that are not negative, the accumulator holds the exact
    sum until that sum overflows, and [Infinity] from then on. *)
Lemma foldl_overflow_nonneg (l : list number) (s e : number) :
  Forall (λ x, le zero x = true) l →
  le zero e = true →
  s = e ∨ (s = PosInf ∧ round_number e = PosInf) →
  round_number (foldl (λ acc x, overflow (exact_add acc x)) s l)
  = round_number (foldl exact_add e l).
Proof.
  intros Hl. revert s e.
  induction Hl as [|x l Hx _ IH]; intros s e He Hs; cbn [foldl].
  - destruct Hs as [->|[-> ->]]; reflexivity.
  - pose proof (le_zero_exact_add _ _ He Hx) as He'.
    apply IH; [exact He'|].
    destruct Hs as [->|[-> Hinf]].
    + destruct (overflow_nonneg _ He') as [->|Hov]; auto.
    + right.
      assert (exact_add PosInf x = PosInf) as ->
        by (destruct x; try discriminate; reflexivity).
      split; [reflexivity|].
      apply (round_number_overflow_mono e); [exact He| |exact Hinf].
      apply le_exact_add_r; assumption.
Qed.

Lemma sum_nonneg (l : list number) :
  Forall (λ x, le zero x = true) l →
  Transaction.sum l = round_number (foldl exact_add zero l).
Proof.
  intros Hl. unfold Transaction.sum, Transaction.accumulate.
  apply foldl_overflow_nonneg; [exact Hl|reflexivity|left; reflexivity].
Qed.

(** Over whole numbers and infinities whose finite values stay below
    [2^1023] in total, the accumulator never leaves the range. *)
Lemma foldl_overflow_integral (l : list number) (acc : number) :
  Forall integral l →
  (is_finite acc = true →
   ∃ z : Z, acc = of_Z z ∧ (Z.abs z + magnitude l < 2 ^ 1023)%Z) →
  foldl (λ acc x, overflow (exact_add acc x)) acc l = foldl exact_add acc l.
Proof.
  intros Hl. revert acc.
  induction Hl as [|x l Hx _ IH]; intros acc Hacc; [reflexivity|].
  cbn [foldl]. cbn [magnitude foldr] in Hacc. fold (magnitude l) in Hacc.
  assert (overflow (exact_add acc x) = exact_add acc x
          ∧ (is_finite (exact_add acc x) = true →
             ∃ z : Z, exact_add acc x = of_Z z
                      ∧ (Z.abs z + magnitude l < 2 ^ 1023)%Z)) as [-> Hnext].
  { destruct acc as [| | |q].
    - split; [reflexivity|discriminate].
    - destruct Hx as [->|[->|[z ->]]]; (split; [reflexivity|discriminate]).
    - destruct Hx as [->|[->|[z ->]]]; (split; [reflexivity|discriminate]).
    - destruct (Hacc eq_refl) as (z0 & Heq & Hlt). rewrite Heq.
      destruct Hx as [->|[->|[z ->]]];
        try (split; [reflexivity|discriminate]).
      rewrite int_of_of_Z in Hlt. rewrite exact_add_of_Z.
      assert (0 ≤ magnitude l)%Z as Hm.
      { clear. induction l as [|y l IHl]; cbn [magnitude foldr]; [lia|].
        fold (magnitude l). lia. }
      split; [apply overflow_of_Z; lia|].
      intros _. exists (z0 + z)%Z. split; [reflexivity|lia]. }
  apply IH, Hnext.
Qed.

Lemma accumulate_integral (l : list number) :
  Forall integral l → (magnitude l < 2 ^ 1023)%Z →
  Transaction.accumulate l = foldl exact_add zero l.
Proof.
  intros Hl Hm. apply foldl_overflow_integral; [exact Hl|].
  intros _. exists 0%Z. split; [reflexivity|lia].
Qed.

(** *** The aggregations *)

Lemma head_group_sum (e : Transaction.t → number) docs :
  or_zero (head (Transaction.group_sum e docs))
  = or_zero (Some (Transaction.sum (e <$> docs))).
Proof.
  destruct docs; [|reflexivity].
  change (zero = or_zero (Some (round_number zero))).
  rewrite round_number_zero. reflexivity.
Qed.

Lemma match_type_positive k coll :
  amounts_positive coll →
  Forall (λ x, le zero x = true)
    (Transaction.amount <$> Transaction.match_type k coll).
Proof.
  unfold Transaction.match_type.
  induction 1 as [|doc rest Hdoc _ IH]; [constructor|].
  destruct (decide (Transaction.type doc = k)) as [Hk|Hk].
  - rewrite filter_cons_True by exact Hk. rewrite fmap_cons.
    constructor; [apply lt_zero_le, Hdoc|exact IH].
  - rewrite filter_cons_False by exact Hk. exact IH.
Qed.

(** The total of one type, as [GET /balance] aggregates it. *)
Lemma sum_match_type k coll :
  amounts_positive coll →
  Transaction.sum (Transaction.amount <$> Transaction.match_type k coll)
  = round_number (sum_of_kind k coll).
Proof.
  intros Hpos. rewrite sum_nonneg by (apply match_type_positive, Hpos).
  rewrite exact_match_type. reflexivity.
Qed.

(** With both types in the enumeration, the signed sum splits into the
    two sums by type. *)
Lemma signed_sum_split coll :
  types_in_enum coll →
  spec_signed_sum coll
  = exact_add (sum_of_kind "deposit" coll)
              (neg (sum_of_kind "withdrawal" coll)).
Proof.
  induction 1 as [|doc rest Hdoc _ IH]; [reflexivity|].
  simpl. rewrite IH.
  set (D := sum_of_kind "deposit" rest).
  set (W := sum_of_kind "withdrawal" rest).
  unfold Transaction.enum in Hdoc.
  apply elem_of_cons in Hdoc as [->|Hdoc].
  - simpl. apply exact_add_assoc.
  - apply list_elem_of_singleton in Hdoc as ->. simpl.
    rewrite neg_exact_add. apply exact_add_swap.
Qed.

Lemma sum_of_kind_nonneg k coll :
  amounts_positive coll → le zero (sum_of_kind k coll) = true.
Proof.
  induction 1 as [|doc rest Hdoc _ IH]; [reflexivity|].
  simpl. case_bool_decide; [|exact IH].
  apply le_zero_exact_add; [apply lt_zero_le|]; assumption.
Qed.

(** [GET /balance] in terms of the two sums. *)
Lemma balance_unfold coll :
  amounts_positive coll →
  balance coll
  = sub (or_zero (Some (round_number (sum_of_kind "deposit" coll))))
        (or_zero (Some (round_number (sum_of_kind "withdrawal" coll)))).
Proof.
  intros Hpos. unfold balance.
  rewrite !head_group_sum, !sum_match_type by exact Hpos. reflexivity.
Qed.

Lemma or_zero_round_sum k coll :
  amounts_positive coll →
  or_zero (Some (round_number (sum_of_kind k coll)))
  = round_number (sum_of_kind k coll).
Proof.
  intros Hpos. apply or_zero_not_nan, round_number_not_nan, le_zero_not_nan.
  apply sum_of_kind_nonneg, Hpos.
Qed.

Lemma balance_spec coll :
  amounts_positive coll → balance coll = spec_balance coll.
Proof.
  intros Hpos. rewrite balance_unfold, !or_zero_round_sum by exact Hpos.
  reflexivity.
Qed.

(** *** Whole amounts *)

Lemma whole_int_of_woi a :
  whole_or_infinite a → (0 ≤ int_of a)%Z.
Proof.
  intros [Hw| ->]; [|reflexivity].
  apply whole_int_of in Hw as [_ Hz]. lia.
Qed.

Lemma whole_woi coll :
  Forall (λ doc, whole (Transaction.amount doc)) coll →
  Forall (λ doc, whole_or_infinite (Transaction.amount doc)) coll.
Proof.
  intros Hw. eapply Forall_impl; [exact Hw|]. intros doc Hdoc. left.
  exact Hdoc.
Qed.

Lemma zsum_bounds_woi (f : Transaction.t → bool) coll :
  Forall (λ doc, whole_or_infinite (Transaction.amount doc)) coll →
  (0 ≤ zsum f coll ≤ zall coll)%Z.
Proof.
  unfold zall. induction 1 as [|doc rest Hdoc _ IH]; cbn [zsum]; [lia|].
  apply whole_int_of_woi in Hdoc. destruct (f doc); lia.
Qed.

Lemma zkind_bounds k coll :
  Forall (λ doc, whole_or_infinite (Transaction.amount doc)) coll →
  (0 ≤ zkind k coll ≤ zall coll)%Z.
Proof. apply zsum_bounds_woi. Qed.

Lemma zkinds_le_zall coll :
  Forall (λ doc, whole (Transaction.amount doc)) coll →
  (zkind "deposit" coll + zkind "withdrawal" coll ≤ zall coll)%Z.
Proof.
  unfold zall, zkind. induction 1 as [|doc rest Hdoc _ IH]; cbn [zsum]; [lia|].
  apply whole_int_of in Hdoc as [_ Hdoc].
  repeat case_bool_decide; try lia. congruence.
Qed.

Lemma zall_enum coll :
  types_in_enum coll →
  zall coll = (zkind "deposit" coll + zkind "withdrawal" coll)%Z.
Proof.
  unfold zall, zkind. induction 1 as [|doc rest Hdoc _ IH]; cbn [zsum]; [lia|].
  unfold Transaction.enum in Hdoc.
  apply elem_of_cons in Hdoc as [->|Hdoc].
  - rewrite bool_decide_eq_true_2, bool_decide_eq_false_2 by done. lia.
  - apply list_elem_of_singleton in Hdoc as ->.
    rewrite bool_decide_eq_false_2, bool_decide_eq_true_2 by done. lia.
Qed.

Lemma zsum_snoc (f : Transaction.t → bool) coll (doc : Transaction.t) :
  zsum f (coll ++ [doc])
  = (zsum f coll + if f doc then int_of (Transaction.amount doc) else 0)%Z.
Proof.
  induction coll as [|d rest IH]; cbn [app zsum].
  - destruct (f doc); lia.
  - rewrite IH. destruct (f d); lia.
Qed.

Lemma zkind_snoc_same k coll (doc : Transaction.t) :
  Transaction.type doc = k →
  zkind k (coll ++ [doc])
  = (zkind k coll + int_of (Transaction.amount doc))%Z.
Proof.
  intros Hk. unfold zkind. rewrite zsum_snoc.
  rewrite bool_decide_eq_true_2 by exact Hk. reflexivity.
Qed.

Lemma zkind_snoc_other k coll (doc : Transaction.t) :
  Transaction.type doc ≠ k → zkind k (coll ++ [doc]) = zkind k coll.
Proof.
  intros Hk. unfold zkind. rewrite zsum_snoc.
  rewrite bool_decide_eq_false_2 by exact Hk. lia.
Qed.

Lemma zall_snoc coll (doc : Transaction.t) :
  zall (coll ++ [doc]) = (zall coll + int_of (Transaction.amount doc))%Z.
Proof. unfold zall. apply zsum_snoc. Qed.

(** A total is [Infinity] or the whole number the integers add up to. *)
Lemma sum_of_kind_woi k coll :
  Forall (λ doc, whole_or_infinite (Transaction.amount doc)) coll →
  sum_of_kind k coll = PosInf ∨ sum_of_kind k coll = of_Z (zkind k coll).
Proof.
  unfold zkind. induction 1 as [|doc rest Hdoc _ IH]; [right; reflexivity|].
  cbn [sum_of_kind zsum]. case_bool_decide; [|exact IH].
  destruct Hdoc as [(z & _ & ->)| ->].
  - rewrite int_of_of_Z. destruct IH as [->| ->]; [left; reflexivity|].
    right. apply exact_add_of_Z.
  - left. destruct IH as [->| ->]; reflexivity.
Qed.

Lemma sum_of_kind_whole k coll :
  Forall (λ doc, whole (Transaction.amount doc)) coll →
  sum_of_kind k coll = of_Z (zkind k coll).
Proof.
  unfold zkind. induction 1 as [|doc rest Hdoc _ IH]; [reflexivity|].
  cbn [sum_of_kind zsum]. case_bool_decide; [|exact IH].
  destruct Hdoc as (z & _ & ->).
  rewrite IH, int_of_of_Z. apply exact_add_of_Z.
Qed.

Lemma finite_total_woi coll :
  Forall (λ doc, whole_or_infinite (Transaction.amount doc)) coll →
  finite_total coll = of_Z (zall coll).
Proof.
  unfold zall. induction 1 as [|doc rest Hdoc _ IH]; [reflexivity|].
  cbn [finite_total zsum]. destruct Hdoc as [(z & _ & ->)| ->].
  - cbn [of_Z is_finite]. fold (of_Z z).
    rewrite IH, int_of_of_Z. apply exact_add_of_Z.
  - cbn [is_finite int_of]. rewrite IH. f_equal.
Qed.

Lemma spec_signed_sum_whole coll :
  Forall (λ doc, whole (Transaction.amount doc)) coll →
  spec_signed_sum coll = of_Z (2 * zkind "deposit" coll - zall coll).
Proof.
  unfold zall, zkind. induction 1 as [|doc rest Hdoc _ IH]; [reflexivity|].
  cbn [spec_signed_sum zsum]. destruct Hdoc as (z & _ & ->).
  rewrite IH, int_of_of_Z.
  case_bool_decide; rewrite ?neg_of_Z, exact_add_of_Z; f_equal; lia.
Qed.

Lemma small_woi_zall coll :
  small_whole_or_infinite_amounts coll
  ↔ Forall (λ doc, whole_or_infinite (Transaction.amount doc)) coll
    ∧ (zall coll < 2 ^ 53)%Z.
Proof.
  unfold small_whole_or_infinite_amounts.
  split; intros [Hw Hlt]; (split; [exact Hw|]).
  - rewrite finite_total_woi, lt_of_Z in Hlt by exact Hw.
    apply Z.ltb_lt, Hlt.
  - rewrite finite_total_woi, lt_of_Z by exact Hw.
    apply Z.ltb_lt, Hlt.
Qed.

Lemma small_whole_zall coll :
  small_whole_amounts coll
  ↔ Forall (λ doc, whole (Transaction.amount doc)) coll
    ∧ (zall coll < 2 ^ 53)%Z.
Proof.
  unfold small_whole_amounts.
  split; intros [Hw Hlt]; (split; [exact Hw|]).
  - rewrite finite_total_woi, lt_of_Z in Hlt by (apply whole_woi, Hw).
    apply Z.ltb_lt, Hlt.
  - rewrite finite_total_woi, lt_of_Z by (apply whole_woi, Hw).
    apply Z.ltb_lt, Hlt.
Qed.

Lemma small_whole_small_woi coll :
  small_whole_amounts coll → small_whole_or_infinite_amounts coll.
Proof. intros [Hw Hlt]. split; [apply whole_woi, Hw|exact Hlt]. Qed.

Lemma whole_positive a : whole a → lt zero a = true.
Proof.
  intros (z & Hz & ->). unfold zero. rewrite lt_of_Z. apply Z.ltb_lt, Hz.
Qed.

Lemma woi_positive coll :
  Forall (λ doc, whole_or_infinite (Transaction.amount doc)) coll →
  amounts_positive coll.
Proof.
  intros Hw. eapply Forall_impl; [exact Hw|].
  intros doc [Hdoc|Hdoc]; [apply whole_positive, Hdoc|].
  rewrite Hdoc. reflexivity.
Qed.

Lemma small_whole_positive coll :
  small_whole_amounts coll → amounts_positive coll.
Proof. intros [Hw _]. apply woi_positive, whole_woi, Hw. Qed.

Lemma woi_double coll :
  Forall (λ doc, whole_or_infinite (Transaction.amount doc)) coll →
  (zall coll < 2 ^ 53)%Z → amounts_double coll.
Proof.
  unfold zall. intros Hw Hlt.
  induction Hw as [|doc rest Hdoc Hrest IH]; [constructor|].
  cbn [zsum] in Hlt.
  pose proof (zsum_bounds_woi (λ _, true) rest Hrest) as Hb.
  pose proof (whole_int_of_woi _ Hdoc) as Hpos.
  constructor; [|apply IH; lia].
  destruct Hdoc as [(z & Hz & Heq)|Heq]; rewrite Heq in *.
  - rewrite int_of_of_Z in Hlt. unfold is_double.
    apply round_number_of_Z. lia.
  - reflexivity.
Qed.

Lemma small_whole_double coll :
  small_whole_amounts coll → amounts_double coll.
Proof.
  intros [Hw Hlt]%small_whole_zall. apply woi_double; [|exact Hlt].
  apply whole_woi, Hw.
Qed.

Lemma whole_double_below (z : Z) :
  (0 < z < 2 ^ 53)%Z → whole (of_Z z) ∧ is_double (of_Z z).
Proof.
  intros Hz. split; [exists z; split; [lia|reflexivity]|].
  apply round_number_of_Z. lia.
Qed.

(** The signed amounts are whole numbers or infinities of the same
    magnitudes. *)
Lemma signed_integral coll :
  Forall (λ doc, whole_or_infinite (Transaction.amount doc)) coll →
  amounts_double coll →
  Forall integral (Transaction.signed <$> coll)
  ∧ magnitude (Transaction.signed <$> coll) = zall coll.
Proof.
  unfold zall. intros Hw Hd. induction Hw as [|doc rest Hdoc _ IH].
  - split; [constructor|reflexivity].
  - apply Forall_cons in Hd as [Hd1 Hd]. destruct (IH Hd) as [IH1 IH2].
    rewrite fmap_cons. cbn [magnitude foldr zsum].
    fold (magnitude (Transaction.signed <$> rest)). rewrite IH2.
    rewrite (signed_double _ Hd1).
    destruct Hdoc as [(z & Hz & ->)| ->]; case_bool_decide;
      rewrite ?neg_of_Z, ?int_of_of_Z.
    + split; [constructor; [right; right; eauto|exact IH1]|lia].
    + split; [constructor; [right; right; eauto|exact IH1]|lia].
    + split; [constructor; [left; reflexivity|exact IH1]|reflexivity].
    + split; [constructor; [right; left; reflexivity|exact IH1]|reflexivity].
Qed.

(** The balance of [POST /withdraw] in terms of the signed sum. *)
Lemma currentBalance_unfold coll :
  Forall (λ doc, whole_or_infinite (Transaction.amount doc)) coll →
  amounts_double coll →
  (zall coll < 2 ^ 1023)%Z →
  currentBalance coll = or_zero (Some (round_number (spec_signed_sum coll))).
Proof.
  intros Hw Hd Hlt. unfold currentBalance. rewrite head_group_sum.
  destruct (signed_integral coll Hw Hd) as [Hint Hmag].
  unfold Transaction.sum.
  rewrite accumulate_integral, exact_signed by (rewrite ?Hmag; assumption).
  reflexivity.
Qed.

Lemma zall_below coll : (zall coll < 2 ^ 53)%Z → (zall coll < 2 ^ 1023)%Z.
Proof.
  intros H. assert (2 ^ 53 ≤ 2 ^ 1023)%Z by (apply Z.pow_le_mono_r; lia). lia.
Qed.

(** When the amounts are small whole numbers or infinities, the balance
    of [POST /withdraw] is that of [GET /balance] passed through [|| 0]:
    the two differ exactly when the latter is [NaN]. *)
Lemma currentBalance_balance coll :
  types_in_enum coll →
  small_whole_or_infinite_amounts coll →
  currentBalance coll = or_zero (Some (balance coll)).
Proof.
  intros Henum [Hw Hlt]%small_woi_zall.
  pose proof (woi_positive _ Hw) as Hpos.
  pose proof (woi_double _ Hw Hlt) as Hdbl.
  rewrite currentBalance_unfold, balance_spec
    by (assumption || apply zall_below, Hlt).
  unfold spec_balance. rewrite signed_sum_split by exact Henum.
  pose proof (zkind_bounds "deposit" coll Hw) as HD.
  pose proof (zkind_bounds "withdrawal" coll Hw) as HW.
  assert (∀ k, (0 ≤ zkind k coll ≤ zall coll)%Z →
               round_number (sum_of_kind k coll) = sum_of_kind k coll) as Hex.
  { intros k Hk. destruct (sum_of_kind_woi k coll Hw) as [->| ->];
      [reflexivity|]. apply round_number_of_Z. lia. }
  rewrite !Hex by assumption. reflexivity.
Qed.

(** On whole amounts whose totals stay below [2^53] both balances are
    computed exactly. *)
Lemma balance_whole coll :
  Forall (λ doc, whole (Transaction.amount doc)) coll →
  (zkind "deposit" coll < 2 ^ 53)%Z →
  (zkind "withdrawal" coll < 2 ^ 53)%Z →
  balance coll = of_Z (zkind "deposit" coll - zkind "withdrawal" coll).
Proof.
  intros Hw HDlt HWlt.
  pose proof (zkind_bounds "deposit" coll (whole_woi _ Hw)) as HD.
  pose proof (zkind_bounds "withdrawal" coll (whole_woi _ Hw)) as HW.
  rewrite balance_unfold by (apply woi_positive, whole_woi, Hw).
  rewrite !sum_of_kind_whole by exact Hw.
  rewrite !round_number_of_Z, !or_zero_of_Z by lia.
  apply sub_of_Z. lia.
Qed.

Lemma currentBalance_whole coll :
  Forall (λ doc, whole (Transaction.amount doc)) coll →
  amounts_double coll →
  (zall coll < 2 ^ 1023)%Z →
  (- 2 ^ 53 < 2 * zkind "deposit" coll - zall coll < 2 ^ 53)%Z →
  currentBalance coll = of_Z (2 * zkind "deposit" coll - zall coll).
Proof.
  intros Hw Hd Hall Hlt.
  rewrite currentBalance_unfold by (assumption || apply whole_woi, Hw).
  rewrite spec_signed_sum_whole by exact Hw.
  rewrite round_number_of_Z, or_zero_of_Z by lia. reflexivity.
Qed.

Lemma balance_small_whole coll :
  small_whole_amounts coll →
  balance coll = of_Z (zkind "deposit" coll - zkind "withdrawal" coll).
Proof.
  intros [Hw Hlt]%small_whole_zall.
  pose proof (zkind_bounds "deposit" coll (whole_woi _ Hw)) as HD.
  pose proof (zkind_bounds "withdrawal" coll (whole_woi _ Hw)) as HW.
  apply balance_whole; [exact Hw|lia..].
Qed.

Lemma currentBalance_small_whole coll :
  small_whole_amounts coll →
  currentBalance coll = of_Z (2 * zkind "deposit" coll - zall coll).
Proof.
  intros Hsw. pose proof Hsw as [Hw Hlt]%small_whole_zall.
  pose proof (zkind_bounds "deposit" coll (whole_woi _ Hw)) as HD.
  apply currentBalance_whole;
    [exact Hw|apply small_whole_double, Hsw|apply zall_below, Hlt|lia].
Qed.

Lemma currentBalance_eq_balance_small_whole coll :
  types_in_enum coll → small_whole_amounts coll →
  currentBalance coll = balance coll.
Proof.
  intros Henum Hsw.
  rewrite currentBalance_small_whole, balance_small_whole by exact Hsw.
  rewrite (zall_enum coll Henum). f_equal. lia.
Qed.

Lemma small_whole_snoc coll (doc : Transaction.t) :
  small_whole_amounts (coll ++ [doc]) →
  small_whole_amounts coll ∧ whole (Transaction.amount doc)
  ∧ (zall coll + int_of (Transaction.amount doc) < 2 ^ 53)%Z.
Proof.
  rewrite !small_whole_zall. rewrite zall_snoc.
  intros [[Hw Hdoc]%Forall_app Hlt].
  apply Forall_cons in Hdoc as [Hdoc _].
  pose proof (whole_int_of _ Hdoc) as [_ Hpos].
  repeat split; try assumption. lia.
Qed.

End SumFacts.

(** ** GET /balance *)


(** ** DELETE /transactions *)

(** C7: [DELETE /transactions] answers 200 "All transactions cleared." on
    every store, the empty one included; right afterwards
    [GET /transactions] answers the empty array and [GET /balance] the
    balance 0. *)
Theorem delete_transactions_clears (s : db) :
  (delete_transactions s).1
  = Respond 200 (Json_message "All transactions cleared.")
  ∧ (delete_transactions empty_db).1
    = Respond 200 (Json_message "All transactions cleared.")
  ∧ (get_transactions (delete_transactions s).2).1
    = Respond 200 (Json_transactions [])
  ∧ (get_balance (delete_transactions s).2).1
    = Respond 200 (Json_balance zero).
Proof. repeat split. Qed.

(** ** POST /withdraw: the check of the funds *)

Lemma save_withdrawal (id : ObjectId) (a : number) (now : nat) coll :
  a ≠ NaN →
  Transaction.save
    {| Transaction._id := id; Transaction.type := "withdrawal";
       Transaction.amount := a; Transaction.date := now |} coll
  = Some (coll ++ [ {| Transaction._id := id;
                       Transaction.type := "withdrawal";
                       Transaction.amount := a;
                       Transaction.date := now |} ]).
Proof. intros Ha. unfold Transaction.save. destruct a; done. Qed.

Lemma save_deposit (id : ObjectId) (a : number) (now : nat) coll :
  a ≠ NaN →
  Transaction.save
    {| Transaction._id := id; Transaction.type := "deposit";
       Transaction.amount := a; Transaction.date := now |} coll
  = Some (coll ++ [ {| Transaction._id := id;
                       Transaction.type := "deposit";
                       Transaction.amount := a;
                       Transaction.date := now |} ]).
Proof. intros Ha. unfold Transaction.save. destruct a; done. Qed.



(** ** The two balance computations *)

(** C6 (amended): for every collection whose types are in
    {deposit, withdrawal} and whose amounts are positive whole numbers or
    [Infinity], the finite ones adding up to less than [2^53], the
    one-pass balance of [POST /withdraw] is the two-aggregation balance
    of [GET /balance] passed through [|| 0]: the two are equal unless the
    latter is [NaN], and then the former is 0. *)
Theorem currentBalance_eq_balance_exact (coll : list Transaction.t) :
  types_in_enum coll →
  small_whole_or_infinite_amounts coll →
  currentBalance coll = or_zero (Some (balance coll))
  ∧ (balance coll ≠ NaN → currentBalance coll = balance coll)
  ∧ (balance coll = NaN → currentBalance coll = zero).
Proof.
  intros Henum Hsmall.
  rewrite (currentBalance_balance coll Henum Hsmall).
  split; [reflexivity|]. split.
  - apply or_zero_not_nan.
  - intros ->. reflexivity.
Qed.

(** ** Validation of the amount *)

Lemma typeof_number (v : value) :
typeof v = "number" ↔ ∃ n, v = VNumber n.
Proof.
split; [|intros [n ->]; reflexivity].
destruct v; try discriminate. eauto.
Qed.

Lemma le_zero_not_positive (n : number) :
  n ≠ NaN → le n zero = true ↔ ¬ positive_number (VNumber n).
Proof.
  unfold positive_number, positive_finite. intros Hnan.
  destruct n; simpl; [done| | |].
  - split; [congruence|]. intros H. destruct H; auto.
  - split; [|reflexivity]. intros _ [(q & H & _)|H]; congruence.
  - rewrite Qcleb_le. split.
    + intros Hle [(q' & H & Hq')|H]; try congruence.
      injection H as <-. apply Qclt_not_le in Hq'. auto.
    + intros H. apply Qcnot_lt_le. intros Hlt. apply H. left. eauto.
Qed.

Lemma non_number_not_positive (v : value) :
  typeof v ≠ "number" → ¬ positive_number v.
Proof.
  intros Hty [(q & H & _)|H]; subst v; apply Hty; reflexivity.
Qed.

(** C2 (amended): on every body parsed from JSON (its amount is not
    [NaN]), [POST /deposit] and [POST /withdraw] answer 400 with their
    invalid-amount error, and leave the store unchanged, exactly when the
    amount is not a positive number: every non-number and every number
    [<= 0] is rejected, and no positive amount, finite or [Infinity], is
    rejected by validation. *)
Theorem invalid_amount_rejected
    (Number_toString : number → string) (now : nat)
    (body : gmap string value) (s : db) :
  get body "amount" ≠ VNumber NaN →
  ((post_deposit Number_toString now body s).1
   = Respond 400 (Json_error "Invalid deposit amount")
   ↔ ¬ positive_number (get body "amount"))
  ∧ ((post_withdraw Number_toString now body s).1
     = Respond 400 (Json_error "Invalid withdrawal amount")
     ↔ ¬ positive_number (get body "amount"))
  ∧ (¬ positive_number (get body "amount") →
     (post_deposit Number_toString now body s).2 = s
     ∧ (post_withdraw Number_toString now body s).2 = s).
Proof.
  unfold post_deposit, post_withdraw. intros Hnan.
  destruct (get body "amount") as [| | |n| | |] eqn:Hamount;
    try (pose proof (non_number_not_positive (get body "amount")) as Hno;
         rewrite Hamount in Hno; simpl in Hno;
         repeat split; try reflexivity; intros; apply Hno; discriminate).
  assert (n ≠ NaN) as Hn by congruence.
  pose proof (le_zero_not_positive n Hn) as Hle.
  destruct (le n zero).
  - repeat split; try reflexivity; intros; apply Hle; reflexivity.
  - assert (¬ ¬ positive_number (VNumber n)) as Hpass.
    { intros H. apply Hle in H. discriminate. }
    cbn [fresh transactions].
    split; [split|split; [split|]]; try (intros H; exfalso; tauto).
    + destruct (Transaction.save _ _); discriminate.
    + destruct (gt n _); [discriminate|].
      destruct (Transaction.save _ _); discriminate.
Qed.

(** ** Frame: the two collections *)

Lemma handle_frame
    (Number_toString : number → string)
    (castString_other : value → option string)
    (now : nat) (r : request) (s : db) :
  frame_of r s (handle Number_toString castString_other now r s).2.
Proof.
  destruct r; cbn [handle frame_of];
    unfold get_root, get_users, get_user, post_users, put_user, delete_user,
      get_balance, post_deposit, post_withdraw, get_transactions,
      delete_transactions;
    repeat case_match; cbn; auto.
Qed.

(** C9: [POST /deposit], [POST /withdraw] and [DELETE /transactions] leave
    the users collection as it is; [POST /users], [PUT /users/:id] and
    [DELETE /users/:id] leave the transactions collection, and so the
    balance, as it is; the [GET] routes leave the whole store as it is. *)
Theorem collections_are_framed
    (Number_toString : number → string)
    (castString_other : value → option string)
    (now : nat) (r : request) (s : db) :
  let s' := (handle Number_toString castString_other now r s).2 in
  match r with
  | POST_deposit _ | POST_withdraw _ | DELETE_transactions =>
      users s' = users s
  | POST_users _ | PUT_user _ _ | DELETE_user _ =>
      transactions s' = transactions s
      ∧ balance (transactions s') = balance (transactions s)
  | GET_root | GET_users | GET_user _ | GET_balance | GET_transactions =>
      s' = s
  end.
Proof. apply handle_frame. Qed.

(** ** POST /users *)

(** C10: when the body has no [name], [POST /users] does not answer 201:
    the required-field validation makes [save()] reject, the handler does
    not catch it, no structured response (201, 400, 404 or other) is sent
    and the users collection is unchanged. *)
Theorem post_users_without_name
    (castString_other : value → option string)
    (body : gmap string value) (s : db) :
  body !! "name" = None →
  (post_users castString_other body s).1 = Unhandled
  ∧ (∀ status p,
       (post_users castString_other body s).1 ≠ Respond status p)
  ∧ users (post_users castString_other body s).2 = users s.
Proof.
  intros Hname. unfold post_users, get. rewrite Hname. cbn.
  repeat split. discriminate.
Qed.

(** ** Invariants of the reachable stores *)

Lemma handle_transactions_step
    (Number_toString : number → string)
    (castString_other : value → option string)
    (now : nat) (r : request) (s : db) :
  transactions_step (transactions s)
    (transactions (handle Number_toString castString_other now r s).2).
Proof.
  pose proof (handle_frame Number_toString castString_other now r s) as H.
  destruct r as [| |id|body|id body|id| |body|body| |];
    cbn [frame_of] in H; cbn [handle] in *.
  - rewrite H. constructor.
  - rewrite H. constructor.
  - rewrite H. constructor.
  - destruct H as [H _]. rewrite H. constructor.
  - destruct H as [H _]. rewrite H. constructor.
  - destruct H as [H _]. rewrite H. constructor.
  - rewrite H. constructor.
  - unfold post_deposit.
    destruct (get body "amount") eqn:Hget; try constructor.
    apply get_number_double in Hget.
    destruct (le n zero) eqn:Hle; [constructor|].
    apply not_le_zero in Hle as [->|Hpos]; [constructor|].
    cbn [fresh transactions].
    rewrite save_deposit by (apply lt_zero_not_nan; exact Hpos).
    constructor; assumption.
  - unfold post_withdraw.
    destruct (get body "amount") eqn:Hget; try constructor.
    apply get_number_double in Hget.
    destruct (le n zero) eqn:Hle; [constructor|].
    destruct (gt n _) eqn:Hgt; [constructor|].
    apply not_le_zero in Hle as [->|Hpos]; [constructor|].
    cbn [fresh transactions].
    rewrite save_withdrawal by (apply lt_zero_not_nan; exact Hpos).
    constructor; assumption.
  - rewrite H. constructor.
  - constructor.
Qed.

Lemma store_invariant_step (coll coll' : list Transaction.t) :
  transactions_step coll coll' →
  store_invariant coll → store_invariant coll'.
Proof.
  intros Hstep (Hpos & Henum & Hdbl).
  destruct Hstep as [| |id a now Ha Hd|id a now Ha Hd Hgt].
  - repeat split; assumption.
  - repeat split; constructor.
  - split; [|split]; apply Forall_app; (split; [assumption|]);
      repeat constructor; assumption.
  - split; [|split]; apply Forall_app; (split; [assumption|]);
      repeat constructor; assumption.
Qed.

Lemma reachable_store_invariant
    (Number_toString : number → string)
    (castString_other : value → option string) (s : db) :
  reachable Number_toString castString_other s →
  store_invariant (transactions s).
Proof.
  induction 1 as [|now r s _ IH].
  - repeat split; constructor.
  - eapply store_invariant_step; [|exact IH].
    apply handle_transactions_step.
Qed.

(** On small whole amounts, an accepted request never lets the
    withdrawals exceed the deposits. *)
Lemma withdrawn_le_deposited_step (coll coll' : list Transaction.t) :
  transactions_step coll coll' →
  types_in_enum coll →
  (small_whole_amounts coll →
   (zkind "withdrawal" coll ≤ zkind "deposit" coll)%Z) →
  small_whole_amounts coll' →
  (zkind "withdrawal" coll' ≤ zkind "deposit" coll')%Z.
Proof.
  intros Hstep Henum IH Hsw'.
  destruct Hstep as [| |id a now Ha Hd|id a now Ha Hd Hgt].
  - apply IH, Hsw'.
  - reflexivity.
  - apply small_whole_snoc in Hsw' as (Hsw & Hwhole & _).
    apply whole_int_of in Hwhole as [_ Hpos].
    cbn [Transaction.amount] in Hpos.
    specialize (IH Hsw). unfold zkind in *. rewrite !zsum_snoc.
    cbn [Transaction.type Transaction.amount].
    repeat case_bool_decide; try done; lia.
  - apply small_whole_snoc in Hsw' as (Hsw & (z & Hz & Heq) & _).
    cbn [Transaction.amount] in Heq. subst a.
    rewrite currentBalance_small_whole in Hgt by exact Hsw.
    unfold gt in Hgt. rewrite lt_of_Z in Hgt. apply Z.ltb_ge in Hgt.
    rewrite (zall_enum _ Henum) in Hgt.
    specialize (IH Hsw). unfold zkind in *. rewrite !zsum_snoc.
    cbn [Transaction.type Transaction.amount]. rewrite int_of_of_Z.
    repeat case_bool_decide; try done; lia.
Qed.

Lemma reachable_withdrawn_le_deposited
    (Number_toString : number → string)
    (castString_other : value → option string) (s : db) :
  reachable Number_toString castString_other s →
  small_whole_amounts (transactions s) →
  (zkind "withdrawal" (transactions s) ≤ zkind "deposit" (transactions s))%Z.
Proof.
  induction 1 as [|now r s Hreach IH].
  - reflexivity.
  - eapply withdrawn_le_deposited_step; [|  |exact IH].
    + apply handle_transactions_step.
    + apply (reachable_store_invariant _ _ _ Hreach).
Qed.

(** C3: in every store reachable from the empty one by requests handled
    one at a time, every persisted transaction has an amount [> 0]. *)
Theorem reachable_amounts_positive
    (Number_toString : number → string)
    (castString_other : value → option string) (s : db) :
  reachable Number_toString castString_other s →
  ∀ doc, doc ∈ transactions s → lt zero (Transaction.amount doc) = true.
Proof.
  intros Hreach.
  destruct (reachable_store_invariant _ _ _ Hreach) as (Hpos & _).
  intros doc Hdoc. unfold amounts_positive in Hpos.
  rewrite Forall_forall in Hpos. apply Hpos, Hdoc.
Qed.

(** C8 (amended): in every store reachable from the empty one by requests
    handled one at a time whose persisted amounts are whole numbers that
    add up to less than [2^53], the balance of [GET /balance] and the
    balance computed by [POST /withdraw] are both [>= 0]. *)
Theorem reachable_balance_not_negative
    (Number_toString : number → string)
    (castString_other : value → option string) (s : db) :
  reachable Number_toString castString_other s →
  small_whole_amounts (transactions s) →
  le zero (balance (transactions s)) = true
  ∧ le zero (currentBalance (transactions s)) = true.
Proof.
  intros Hreach Hsw.
  destruct (reachable_store_invariant _ _ _ Hreach) as (_ & Henum & _).
  pose proof (reachable_withdrawn_le_deposited _ _ _ Hreach Hsw) as Hle.
  rewrite currentBalance_eq_balance_small_whole by assumption.
  rewrite balance_small_whole by exact Hsw.
  unfold zero. rewrite le_of_Z. split; apply Z.leb_le; lia.
Qed.

(** ** Concrete runs *)

Example scenario_empty_balance :
  (Samples.run 0 GET_balance empty_db).1 = Respond 200 (Json_balance zero).
Proof. reflexivity. Qed.

Example scenario_deposit_100 :
  let s := Samples.after [POST_deposit (Samples.amount_body (of_Z 100))] in
  (Samples.run 0 (POST_deposit (Samples.amount_body (of_Z 100))) empty_db).1
    = Respond 200 (Json_message "Deposited $100")
  ∧ (Samples.run 1 GET_balance s).1 = Respond 200 (Json_balance (of_Z 100)).
Proof. vm_compute. split; reflexivity. Qed.

Example scenario_user_not_found :
  (Samples.run 0 (GET_user (Some 7%N)) empty_db).1
  = Respond 404 (Json_error "User not found").
Proof. reflexivity. Qed.

Example scenario_withdraw_infinity_then_stuck :
  let s := Samples.after infinite_requests in
  (Samples.run 0 (POST_deposit (Samples.amount_body (of_Z 100))) s).1
  = Respond 200 (Json_message "Deposited $100")
  ∧ (Samples.run 0 (POST_withdraw (Samples.amount_body (of_Z 1)))
       (Samples.run 0 (POST_deposit (Samples.amount_body (of_Z 100))) s).2).1
    = Respond 400 (Json_error "Insufficient funds").
Proof. vm_compute. split; reflexivity. Qed.

Lemma after_reachable (rs : list request) :
  reachable Samples.show Samples.no_cast (Samples.after rs).
Proof.
  unfold Samples.after.
  induction rs as [|r rs IH] using rev_ind.
  - apply reachable_empty.
  - rewrite foldl_app. cbn [foldl]. apply reachable_handle. exact IH.
Qed.

Example infinite_history_accepted :
  (Samples.run 0 (POST_deposit (Samples.amount_body PosInf)) empty_db).1
  = Respond 200 (Json_message "Deposited $Infinity")
  ∧ (Samples.run 0 (POST_withdraw (Samples.amount_body PosInf))
       (Samples.after [POST_deposit (Samples.amount_body PosInf)])).1
    = Respond 200 (Json_message "Withdrew $Infinity")
  ∧ transactions (Samples.after infinite_requests) = infinite_history.
Proof. vm_compute. repeat split. Qed.

(** Deposits of 0.1 and 0.2 leave a balance above 0.3: the sum is the
    binary64 number 0.30000000000000004. *)
Example scenario_tenths_balance :
  let s := Samples.after [deposit_of (decimal 1 10);
                          deposit_of (decimal 2 10)] in
  let literal := round_number (decimal 30000000000000004 (10 ^ 17)) in
  lt (round_number (decimal 3 10)) (balance (transactions s)) = true
  ∧ le (balance (transactions s)) literal = true
  ∧ le literal (balance (transactions s)) = true.
Proof. vm_compute. repeat split. Qed.

(** Deposits of 0.1 and 0.3 add up to the binary64 number 0.4, so a
    withdrawal of 0.4 is accepted. *)
Example scenario_withdraw_rounded_total :
  let s := Samples.after [deposit_of (decimal 1 10);
                          deposit_of (decimal 3 10)] in
  let after := post_withdraw Samples.show 2
                 (Samples.amount_body (decimal 4 10)) s in
  after.1 ≠ Respond 400 (Json_error "Insufficient funds")
  ∧ length (transactions after.2) = 3.
Proof. vm_compute. split; [discriminate|reflexivity]. Qed.

(** Two deposits of 1e308 are both accepted as finite amounts and their
    sum overflows: the balance is [Infinity]. *)
Example scenario_overflow_balance :
  let s := Samples.after [deposit_of (decimal (10 ^ 308) 1);
                          deposit_of (decimal (10 ^ 308) 1)] in
  Forall (λ doc, is_finite (Transaction.amount doc) = true) (transactions s)
  ∧ length (transactions s) = 2
  ∧ balance (transactions s) = PosInf.
Proof. vm_compute. repeat constructor. Qed.

(** C2 as stated fails: the amount [Infinity] is not a positive finite
    number, yet [POST /deposit] does not answer 400 (it answers 200 and
    persists the deposit, see [infinite_history_accepted]). *)
Lemma deposit_infinity_not_rejected :
  ¬ ((post_deposit Samples.show 0 (Samples.amount_body PosInf) empty_db).1
     = Respond 400 (Json_error "Invalid deposit amount")
     ↔ ¬ positive_finite (get (Samples.amount_body PosInf) "amount")).
Proof.
  intros [_ H].
  assert ((post_deposit Samples.show 0 (Samples.amount_body PosInf)
             empty_db).1
          = Respond 400 (Json_error "Invalid deposit amount")) as Hresp.
  { apply H. intros (q & Hq & _). vm_compute in Hq. discriminate. }
  vm_compute in Hresp. discriminate.
Qed.

(** Two deposits and two withdrawals of 1e308, all accepted: the totals
    overflow, [GET /balance] computes [NaN] and [POST /withdraw]
    [Infinity]. *)
Example scenario_overflow_both_ways :
  let s := Samples.after [deposit_of (decimal (10 ^ 308) 1);
                          deposit_of (decimal (10 ^ 308) 1);
                          withdraw_of (decimal (10 ^ 308) 1);
                          withdraw_of (decimal (10 ^ 308) 1)] in
  Forall (λ doc, is_finite (Transaction.amount doc) = true) (transactions s)
  ∧ length (transactions s) = 4
  ∧ balance (transactions s) = NaN
  ∧ currentBalance (transactions s) = PosInf.
Proof. vm_compute. repeat constructor. Qed.



(** C6 as stated fails: on the reachable history [infinite_history], whose
    types are in the enumeration, [POST /withdraw] computes the balance 0
    and [GET /balance] computes [NaN]. *)
Lemma balances_differ_on_infinite_history :
  types_in_enum infinite_history
  ∧ currentBalance infinite_history = zero
  ∧ balance infinite_history = NaN
  ∧ currentBalance infinite_history ≠ balance infinite_history.
Proof.
  split; [|split; [|split]].
  - repeat constructor.
  - reflexivity.
  - reflexivity.
  - vm_compute. discriminate.
Qed.

(** The two computations also differ on finite amounts: after
    depositing 0.1, withdrawing 0.1 and depositing 0.2 the one-pass
    balance is 0.2 and the balance of [GET /balance] is
    0.20000000000000004. *)
Example balances_differ_on_rounded_history :
  let s := Samples.after [deposit_of (decimal 1 10);
                          withdraw_of (decimal 1 10);
                          deposit_of (decimal 2 10)] in
  length (transactions s) = 3
  ∧ Forall (λ doc, is_finite (Transaction.amount doc) = true) (transactions s)
  ∧ lt (currentBalance (transactions s)) (balance (transactions s)) = true.
Proof. vm_compute. repeat constructor. Qed.

(** C8 as stated fails: after the two requests [infinite_requests] the
    store is reachable and the balance of [GET /balance] is [NaN], which is
    not [>= 0]. *)
Lemma balance_nan_after_infinite_requests :
  reachable Samples.show Samples.no_cast (Samples.after infinite_requests)
  ∧ (Samples.run 0 GET_balance (Samples.after infinite_requests)).1
    = Respond 200 (Json_balance NaN)
  ∧ le zero (balance (transactions (Samples.after infinite_requests)))
    = false.
Proof.
  split; [apply after_reachable|]. vm_compute. split; reflexivity.
Qed.

(** Finite amounts can also leave a negative balance: after depositing
    0.3, withdrawing 0.1, depositing 0.9 and withdrawing 1.1, all four
    accepted, the balance of [GET /balance] is below 0. *)
Example balance_negative_after_rounding :
  reachable Samples.show Samples.no_cast store_overdrawn
  ∧ length (transactions store_overdrawn) = 4
  ∧ Forall (λ doc, is_finite (Transaction.amount doc) = true)
      (transactions store_overdrawn)
  ∧ lt (balance (transactions store_overdrawn)) zero = true.
Proof.
  split; [apply after_reachable|]. vm_compute. repeat constructor.
Qed.

(** ** The theorems at concrete stores *)

Lemma store_100_transactions :
  transactions store_100
  = [ {| Transaction._id := 0%N; Transaction.type := "deposit";
         Transaction.amount := of_Z 100; Transaction.date := 0 |} ].
Proof. vm_compute. reflexivity. Qed.

Lemma store_70_transactions :
  transactions store_70
  = [ {| Transaction._id := 0%N; Transaction.type := "deposit";
         Transaction.amount := of_Z 100; Transaction.date := 0 |};
      {| Transaction._id := 1%N; Transaction.type := "withdrawal";
         Transaction.amount := of_Z 30; Transaction.date := 0 |} ].
Proof. vm_compute. reflexivity. Qed.


Lemma store_70_small_whole : small_whole_amounts (transactions store_70).
Proof.
  split; [|vm_compute; reflexivity]. rewrite store_70_transactions.
  repeat constructor.
  - exists 100%Z. split; [lia|reflexivity].
  - exists 30%Z. split; [lia|reflexivity].
Qed.

Lemma store_70_reachable :
  reachable Samples.show Samples.no_cast store_70.
Proof. apply after_reachable. Qed.


Lemma invalid_amount_rejected_witness :
  post_withdraw Samples.show 0 (Samples.amount_body (of_Z (-5))) empty_db
  = (Respond 400 (Json_error "Invalid withdrawal amount"), empty_db).
Proof.
  destruct (invalid_amount_rejected Samples.show 0
              (Samples.amount_body (of_Z (-5))) empty_db)
    as (_ & [_ Hresp] & Hstore).
  - vm_compute. discriminate.
  - assert (¬ positive_number
                (get (Samples.amount_body (of_Z (-5))) "amount")) as Hbad.
    { apply (le_zero_not_positive (of_Z (-5))); [discriminate|reflexivity]. }
    apply injective_projections.
    + apply Hresp, Hbad.
    + apply Hstore, Hbad.
Defined.

Lemma reachable_amounts_positive_witness :
  reachable Samples.show Samples.no_cast store_70
  ∧ ∀ doc, doc ∈ transactions store_70 →
           lt zero (Transaction.amount doc) = true.
Proof.
  split; [exact store_70_reachable|].
  exact (reachable_amounts_positive _ _ store_70 store_70_reachable).
Defined.



Lemma currentBalance_eq_balance_exact_witness :
  currentBalance (transactions store_70) = balance (transactions store_70)
  ∧ balance (transactions store_70) = of_Z 70.
Proof.
  split; [|vm_compute; reflexivity].
  destruct (currentBalance_eq_balance_exact (transactions store_70))
    as (_ & Heq & _).
  - vm_compute. repeat constructor.
  - apply small_whole_small_woi, store_70_small_whole.
  - apply Heq. vm_compute. discriminate.
Defined.

Lemma reachable_balance_not_negative_witness :
  reachable Samples.show Samples.no_cast store_70
  ∧ le zero (balance (transactions store_70)) = true.
Proof.
  split; [exact store_70_reachable|].
  destruct (reachable_balance_not_negative _ _ store_70 store_70_reachable
              store_70_small_whole) as [H _].
  exact H.
Defined.

Lemma post_users_without_name_witness :
  (post_users Samples.no_cast ∅ empty_db).1 = Unhandled
  ∧ users (post_users Samples.no_cast ∅ empty_db).2 = ∅.
Proof.
  destruct (post_users_without_name Samples.no_cast ∅ empty_db)
    as (Hresp & _ & Husers).
  - reflexivity.
  - split; [exact Hresp | exact Husers].
Defined.

(** * Further properties of the handlers *)

(** ** POST /deposit *)

Lemma post_deposit_accepts
    (Number_toString : number → string) (now : nat)
    (body : gmap string value) (s : db) (amount : number) :
  get body "amount" = VNumber amount →
  lt zero amount = true →
  post_deposit Number_toString now body s
  = (Respond 200 (Json_message ("Deposited $" +:+ Number_toString amount)),
     set_transactions
       (transactions s
        ++ [ {| Transaction._id := next_id s;
                Transaction.type := "deposit";
                Transaction.amount := amount;
                Transaction.date := now |} ])
       (fresh s)).
Proof.
  intros Hbody Hpos. unfold post_deposit.
  rewrite Hbody, (lt_zero_not_le _ Hpos). cbn [fresh transactions].
  rewrite save_deposit by (apply lt_zero_not_nan; exact Hpos).
  reflexivity.
Qed.

Lemma post_withdraw_accepts
    (Number_toString : number → string) (now : nat)
    (body : gmap string value) (s : db) (amount : number) :
  get body "amount" = VNumber amount →
  lt zero amount = true →
  le amount (currentBalance (transactions s)) = true →
  post_withdraw Number_toString now body s
  = (Respond 200 (Json_message ("Withdrew $" +:+ Number_toString amount)),
     set_transactions
       (transactions s
        ++ [ {| Transaction._id := next_id s;
                Transaction.type := "withdrawal";
                Transaction.amount := amount;
                Transaction.date := now |} ])
       (fresh s)).
Proof.
  intros Hbody Hpos Hle. unfold post_withdraw.
  rewrite Hbody, (lt_zero_not_le _ Hpos), (le_not_gt _ _ Hle).
  cbn [fresh transactions].
  rewrite save_withdrawal by (apply lt_zero_not_nan; exact Hpos).
  reflexivity.
Qed.

(** X1: a deposit of a positive amount is always accepted, whatever the
    store holds: it is answered 200 "Deposited $<amount>", exactly one
    document of type deposit with that amount and the current date is
    appended and the users are untouched; when the amounts persisted
    afterwards are whole numbers that add up to less than [2^53], the
    balance of [GET /balance] read right afterwards is the balance before
    plus the amount. *)
Theorem deposit_accepted
    (Number_toString : number → string) (now : nat)
    (body : gmap string value) (s : db) (amount : number) :
  get body "amount" = VNumber amount →
  lt zero amount = true →
  let after := post_deposit Number_toString now body s in
  after.1
  = Respond 200 (Json_message ("Deposited $" +:+ Number_toString amount))
  ∧ transactions after.2
    = transactions s
      ++ [ {| Transaction._id := next_id s;
              Transaction.type := "deposit";
              Transaction.amount := amount;
              Transaction.date := now |} ]
  ∧ users after.2 = users s
  ∧ (small_whole_amounts (transactions after.2) →
     (get_balance after.2).1
     = Respond 200 (Json_balance (add (balance (transactions s)) amount))).
Proof.
  intros Hbody Hpos after. subst after.
  rewrite (post_deposit_accepts _ _ _ _ _ Hbody Hpos).
  cbn [fst snd set_transactions transactions users fresh].
  repeat split. intros Hsw. unfold get_balance.
  cbn [fst transactions set_transactions fresh]. do 2 f_equal.
  rewrite (balance_small_whole _ Hsw).
  apply small_whole_snoc in Hsw as (Hsw & (z & Hz & Heq) & Hlt).
  cbn [Transaction.amount] in Heq, Hlt. subst amount.
  rewrite int_of_of_Z in Hlt.
  pose proof Hsw as [Hw _]%small_whole_zall.
  pose proof (zkinds_le_zall _ Hw) as Hsum.
  pose proof (zkind_bounds "deposit" _ (whole_woi _ Hw)) as HD.
  pose proof (zkind_bounds "withdrawal" _ (whole_woi _ Hw)) as HW.
  rewrite (balance_small_whole _ Hsw).
  rewrite zkind_snoc_same, zkind_snoc_other by done.
  cbn [Transaction.amount]. rewrite int_of_of_Z.
  rewrite add_of_Z by lia. f_equal. lia.
Qed.

(** ** GET /transactions *)

Lemma insert_desc_perm (doc : Transaction.t) (l : list Transaction.t) :
  Transaction.insert_desc doc l ≡ₚ doc :: l.
Proof.
  induction l as [|d l IH]; cbn [Transaction.insert_desc]; [reflexivity|].
  case_match; [reflexivity|].
  rewrite IH. apply Permutation_swap.
Qed.

Lemma sort_date_desc_perm (coll : list Transaction.t) :
  Transaction.sort_date_desc coll ≡ₚ coll.
Proof.
  unfold Transaction.sort_date_desc.
  induction coll as [|doc coll IH]; cbn [foldr]; [reflexivity|].
  rewrite insert_desc_perm, IH. reflexivity.
Qed.

Lemma insert_desc_newest_first (doc : Transaction.t)
    (l : list Transaction.t) :
  newest_first l → newest_first (Transaction.insert_desc doc l).
Proof.
  unfold newest_first.
  induction 1 as [|d l Hl IH Hd]; cbn [Transaction.insert_desc].
  - repeat constructor.
  - destruct (Transaction.date d <? Transaction.date doc)%nat eqn:Hlt.
    + apply Nat.ltb_lt in Hlt. constructor; [constructor; assumption|].
      constructor; [lia|].
      eapply Forall_impl; [exact Hd|]. cbn. intros x Hx. lia.
    + apply Nat.ltb_ge in Hlt. constructor; [exact IH|].
      rewrite insert_desc_perm. constructor; assumption.
Qed.

Lemma sort_date_desc_newest_first (coll : list Transaction.t) :
  newest_first (Transaction.sort_date_desc coll).
Proof.
  unfold Transaction.sort_date_desc.
  induction coll as [|doc coll IH]; cbn [foldr].
  - constructor.
  - apply insert_desc_newest_first, IH.
Qed.

(** X2: [GET /transactions] answers 200 with a list that holds exactly
    the stored transactions (a permutation of the collection, nothing
    dropped, added or repeated) ordered newest first by [date]; the store
    is left as it is. *)
Theorem get_transactions_newest_first (s : db) :
  ∃ listing,
    get_transactions s = (Respond 200 (Json_transactions listing), s)
    ∧ listing ≡ₚ transactions s
    ∧ length listing = length (transactions s)
    ∧ newest_first listing.
Proof.
  exists (Transaction.sort_date_desc (transactions s)).
  split; [reflexivity|].
  split; [apply sort_date_desc_perm|].
  split; [rewrite sort_date_desc_perm; reflexivity|].
  apply sort_date_desc_newest_first.
Qed.

(** ** What a request can do to the store *)

(** X3: whatever the request, the only status codes sent are 200, 201,
    400 and 404; a request answered 400 or 404 leaves the whole store as
    it was, and a request whose promise is rejected without an answer
    changes neither the users nor the transactions. *)
Theorem error_answers_change_nothing
    (Number_toString : number → string)
    (castString_other : value → option string)
    (now : nat) (r : request) (s : db) :
  let result := handle Number_toString castString_other now r s in
  (∀ status p, result.1 = Respond status p →
     status = 200 ∨ status = 201 ∨ status = 400 ∨ status = 404)
  ∧ (∀ status p, result.1 = Respond status p →
       status = 400 ∨ status = 404 → result.2 = s)
  ∧ (result.1 = Unhandled →
       users result.2 = users s ∧ transactions result.2 = transactions s).
Proof.
  destruct r; cbn [handle];
    unfold get_root, get_users, get_user, post_users, put_user, delete_user,
      get_balance, post_deposit, post_withdraw, get_transactions,
      delete_transactions;
    repeat case_match; cbn [fst snd];
    (split;
     [ intros status p Heq; simplify_eq; auto
     | split;
       [ intros status p Heq Hst; simplify_eq; destruct Hst; simplify_eq;
         reflexivity
       | intros Heq; simplify_eq; split; reflexivity ] ]).
Qed.

Lemma save_appends (doc : Transaction.t) (coll coll' : list Transaction.t) :
  Transaction.save doc coll = Some coll' → coll' = coll ++ [doc].
Proof.
  unfold Transaction.save. case_match; intros; simplify_eq. reflexivity.
Qed.

(** X4: the transactions collection is append-only between clears: every
    request other than [DELETE /transactions] keeps each stored
    transaction, unchanged and in place, and adds at most one document at
    the end. *)
Theorem transactions_append_only
    (Number_toString : number → string)
    (castString_other : value → option string)
    (now : nat) (r : request) (s : db) :
  r = DELETE_transactions
  ∨ ∃ added,
      transactions (handle Number_toString castString_other now r s).2
      = transactions s ++ added
      ∧ length added ≤ 1.
Proof.
  destruct r; [right..|left; reflexivity]; cbn [handle];
    unfold get_root, get_users, get_user, post_users, put_user, delete_user,
      get_balance, post_deposit, post_withdraw, get_transactions;
    repeat case_match; cbn [snd transactions set_users set_transactions fresh];
    try (exists []; rewrite app_nil_r; split; [reflexivity|cbn; lia]);
    match goal with
    | H : Transaction.save ?doc _ = Some _ |- _ =>
        apply save_appends in H; cbn [transactions fresh] in H; subst;
        exists [doc]; split; [reflexivity|cbn; lia]
    end.
Qed.

(** ** More invariants of the reachable stores *)

(** X5: every transaction of a reachable store satisfies the schema of
    [models/Transaction.js]: its [type] is "deposit" or "withdrawal" and
    its [amount] is a number other than [NaN], so it passes [validate]. *)
Theorem reachable_transactions_valid
    (Number_toString : number → string)
    (castString_other : value → option string) (s : db) :
  reachable Number_toString castString_other s →
  ∀ doc, doc ∈ transactions s →
    (Transaction.type doc = "deposit" ∨ Transaction.type doc = "withdrawal")
    ∧ Transaction.amount doc ≠ NaN
    ∧ Transaction.validate doc = true.
Proof.
  intros Hreach doc Hdoc.
  destruct (reachable_store_invariant _ _ _ Hreach) as (Hpos & Henum & _).
  unfold amounts_positive, types_in_enum in *.
  rewrite Forall_forall in Hpos, Henum.
  specialize (Hpos doc Hdoc). specialize (Henum doc Hdoc).
  apply lt_zero_not_nan in Hpos.
  split; [|split; [exact Hpos|]].
  - unfold Transaction.enum in Henum.
    apply elem_of_cons in Henum as [Hty|Hty]; [left; exact Hty|].
    right. apply list_elem_of_singleton in Hty. exact Hty.
  - unfold Transaction.validate.
    rewrite bool_decide_eq_true_2 by exact Henum.
    destruct (Transaction.amount doc); done.
Qed.

(** X6: in every reachable store whose amounts are whole numbers that
    add up to less than [2^53], the withdrawals never add up to more than
    the deposits: the total of the withdrawal aggregation is [<=] the
    total of the deposit aggregation. *)
Theorem reachable_withdrawals_within_deposits
    (Number_toString : number → string)
    (castString_other : value → option string) (s : db) :
  reachable Number_toString castString_other s →
  small_whole_amounts (transactions s) →
  le (Transaction.sum
        (Transaction.amount
           <$> Transaction.match_type "withdrawal" (transactions s)))
     (Transaction.sum
        (Transaction.amount
           <$> Transaction.match_type "deposit" (transactions s)))
  = true.
Proof.
  intros Hreach Hsw.
  pose proof (reachable_withdrawn_le_deposited _ _ _ Hreach Hsw) as Hle.
  pose proof Hsw as [Hw Hlt]%small_whole_zall.
  pose proof (zkind_bounds "deposit" _ (whole_woi _ Hw)) as HD.
  pose proof (zkind_bounds "withdrawal" _ (whole_woi _ Hw)) as HW.
  rewrite !sum_match_type by (apply small_whole_positive, Hsw).
  rewrite !sum_of_kind_whole by exact Hw.
  rewrite !round_number_of_Z, le_of_Z by lia.
  apply Z.leb_le, Hle.
Qed.

(** X7: on every reachable store whose amounts are whole numbers or
    [Infinity], the finite ones adding up to less than [2^53], the
    balance that [POST /withdraw] checks against is the balance that
    [GET /balance] reports, except when the latter is [NaN], where the
    check uses 0. *)
Theorem reachable_currentBalance
    (Number_toString : number → string)
    (castString_other : value → option string) (s : db) :
  reachable Number_toString castString_other s →
  small_whole_or_infinite_amounts (transactions s) →
  currentBalance (transactions s)
  = match balance (transactions s) with
    | NaN => zero
    | b => b
    end.
Proof.
  intros Hreach Hsmall.
  destruct (reachable_store_invariant _ _ _ Hreach) as (_ & Henum & _).
  rewrite currentBalance_balance, or_zero_Some by assumption.
  destruct (balance (transactions s)); reflexivity.
Qed.

(** ** POST /withdraw on an empty balance *)

Lemma post_withdraw_at_zero
    (Number_toString : number → string) (now : nat)
    (body : gmap string value) (s : db) :
  currentBalance (transactions s) = zero →
  (∀ p, (post_withdraw Number_toString now body s).1 ≠ Respond 200 p)
  ∧ transactions (post_withdraw Number_toString now body s).2
    = transactions s.
Proof.
  intros Hzero. unfold post_withdraw.
  destruct (get body "amount") as [| | |n| | |];
    try (split; [discriminate|reflexivity]).
  destruct (le n zero) eqn:Hle; [split; [discriminate|reflexivity]|].
  rewrite Hzero.
  destruct (gt n zero) eqn:Hgt; [split; [discriminate|reflexivity]|].
  apply not_le_zero in Hle as [->|Hpos].
  - cbn. split; [discriminate|reflexivity].
  - unfold gt in Hgt. congruence.
Qed.

(** X8: when the balance computed by [POST /withdraw] is 0, as on an
    empty history or right after a clear, no withdrawal is accepted,
    whatever the body: the answer is never 200 and the transactions stay
    as they are. *)
Theorem withdraw_refused_at_zero
    (Number_toString : number → string) (now : nat)
    (body : gmap string value) (s : db) :
  currentBalance (transactions s) = zero →
  (∀ p, (post_withdraw Number_toString now body s).1 ≠ Respond 200 p)
  ∧ transactions (post_withdraw Number_toString now body s).2
    = transactions s.
Proof.
  intros Hzero. unfold post_withdraw.
  destruct (get body "amount") as [| | |amount| | |];
    try (split; [discriminate|reflexivity]).
  destruct (le amount zero) eqn:Hle; [split; [discriminate|reflexivity]|].
  rewrite Hzero. unfold gt.
  apply not_le_zero in Hle as [->|Hpos].
  - cbn. split; [discriminate|reflexivity].
  - rewrite Hpos. split; [discriminate|reflexivity].
Qed.

(** ** A deposit followed by a withdrawal *)

(** X9: on a reachable store, a deposit of a positive amount after which
    the persisted amounts are whole numbers that add up to less than
    [2^53], followed by a withdrawal of the same amount: the withdrawal
    is always accepted, two documents have been added and the balance of
    [GET /balance] is back to what it was. *)
Theorem deposit_then_withdraw_restores
    (Number_toString : number → string)
    (castString_other : value → option string)
    (now now' : nat) (body : gmap string value) (s : db) (amount : number) :
  reachable Number_toString castString_other s →
  get body "amount" = VNumber amount →
  lt zero amount = true →
  small_whole_amounts
    (transactions (post_deposit Number_toString now body s).2) →
  let s1 := (post_deposit Number_toString now body s).2 in
  let after := post_withdraw Number_toString now' body s1 in
  after.1
  = Respond 200 (Json_message ("Withdrew $" +:+ Number_toString amount))
  ∧ length (transactions after.2) = S (S (length (transactions s)))
  ∧ balance (transactions after.2) = balance (transactions s).
Proof.
  intros Hreach Hbody Hpos Hsw1 s1 after.
  set (dep := {| Transaction._id := next_id s;
                 Transaction.type := "deposit";
                 Transaction.amount := amount;
                 Transaction.date := now |}).
  assert (transactions s1 = transactions s ++ [dep]) as Hs1.
  { subst s1. rewrite (post_deposit_accepts _ _ _ _ _ Hbody Hpos).
    reflexivity. }
  fold s1 in Hsw1. rewrite Hs1 in Hsw1.
  pose proof (small_whole_snoc _ _ Hsw1) as (Hsw & (z & Hz & Heq) & Hlt).
  cbn [dep Transaction.amount] in Heq, Hlt. subst amount.
  rewrite int_of_of_Z in Hlt.
  destruct (reachable_store_invariant _ _ _ Hreach) as (_ & Henum & _).
  pose proof (reachable_withdrawn_le_deposited _ _ _ Hreach Hsw) as Hwd.
  pose proof (zall_enum _ Henum) as Hall.
  pose proof Hsw as [Hw _]%small_whole_zall.
  pose proof Hsw1 as [Hw1 _]%small_whole_zall.
  pose proof (zkind_bounds "deposit" _ (whole_woi _ Hw)) as HD.
  pose proof (zkind_bounds "withdrawal" _ (whole_woi _ Hw)) as HW.
  assert (zkind "deposit" (transactions s ++ [dep])
          = (zkind "deposit" (transactions s) + z)%Z) as HD1.
  { rewrite zkind_snoc_same by reflexivity. unfold dep.
    cbn [Transaction.amount]. rewrite int_of_of_Z. reflexivity. }
  assert (zkind "withdrawal" (transactions s ++ [dep])
          = zkind "withdrawal" (transactions s)) as HW1.
  { apply zkind_snoc_other. discriminate. }
  assert (zall (transactions s ++ [dep]) = (zall (transactions s) + z)%Z)
    as Hall1.
  { rewrite zall_snoc. unfold dep. cbn [Transaction.amount].
    rewrite int_of_of_Z. reflexivity. }
  assert (le (of_Z z) (currentBalance (transactions s1)) = true) as Hle.
  { rewrite Hs1, (currentBalance_small_whole _ Hsw1), le_of_Z, HD1, Hall1.
    apply Z.leb_le. lia. }
  subst after.
  rewrite (post_withdraw_accepts _ _ _ _ _ Hbody Hpos Hle).
  cbn [fst snd set_transactions transactions fresh].
  split; [reflexivity|]. split.
  - rewrite Hs1, !length_app. cbn. lia.
  - rewrite Hs1, (balance_small_whole _ Hsw).
    set (wd := {| Transaction._id := next_id s1;
                  Transaction.type := "withdrawal";
                  Transaction.amount := of_Z z;
                  Transaction.date := now' |}).
    assert (zkind "deposit" ((transactions s ++ [dep]) ++ [wd])
            = (zkind "deposit" (transactions s) + z)%Z) as HD2.
    { rewrite zkind_snoc_other by discriminate. exact HD1. }
    assert (zkind "withdrawal" ((transactions s ++ [dep]) ++ [wd])
            = (zkind "withdrawal" (transactions s) + z)%Z) as HW2.
    { rewrite zkind_snoc_same, HW1 by reflexivity. unfold wd.
      cbn [Transaction.amount]. rewrite int_of_of_Z. reflexivity. }
    rewrite balance_whole, HD2, HW2.
    + f_equal. lia.
    + apply Forall_app. split; [exact Hw1|]. repeat constructor.
      exists z. split; [exact Hz|reflexivity].
    + rewrite HD2. lia.
    + rewrite HW2. lia.
Qed.

(** ** Users API *)

Lemma users_consistent_fresh (s : db) :
  users_consistent s → users_consistent (fresh s).
Proof.
  intros Hs i u Hiu. destruct (Hs i u Hiu) as [Hid Hlt].
  split; [exact Hid|]. cbn. lia.
Qed.

Lemma users_consistent_same (s s' : db) :
  users s' = users s → (next_id s ≤ next_id s')%N →
  users_consistent s → users_consistent s'.
Proof.
  intros Hu Hn Hs i u Hiu. rewrite Hu in Hiu.
  destruct (Hs i u Hiu) as [Hid Hlt]. split; [exact Hid|lia].
Qed.

Lemma users_consistent_handle
    (Number_toString : number → string)
    (castString_other : value → option string)
    (now : nat) (r : request) (s : db) :
  users_consistent s →
  users_consistent (handle Number_toString castString_other now r s).2.
Proof.
  intros Hs.
  destruct r as [| |id|body|id body|id| |body|body| |]; cbn [handle].
  - exact Hs.
  - exact Hs.
  - unfold get_user. repeat case_match; exact Hs.
  - unfold post_users.
    destruct (castString _ _) as [name|];
      [|apply users_consistent_fresh, Hs].
    case_match; [|apply users_consistent_fresh, Hs].
    intros i u Hiu. cbn in Hiu.
    apply lookup_insert_Some in Hiu as [[<- <-]|[Hne Hiu]].
    + cbn. split; [reflexivity|lia].
    + destruct (Hs i u Hiu) as [Hid Hlt]. split; [exact Hid|]. cbn. lia.
  - unfold put_user. repeat case_match; try exact Hs; subst;
      intros i u Hiu; cbn in Hiu;
      (apply lookup_insert_Some in Hiu as [[<- <-]|[Hne Hiu]];
       [|exact (Hs i u Hiu)]);
      match goal with H : users s !! _ = Some _ |- _ =>
        destruct (Hs _ _ H) as [Hid Hlt] end;
      split; solve [reflexivity | assumption].
  - unfold delete_user. repeat case_match; try exact Hs.
    intros i u Hiu. cbn in Hiu.
    apply lookup_delete_Some in Hiu as [_ Hiu]. exact (Hs i u Hiu).
  - exact Hs.
  - unfold post_deposit.
    repeat case_match; try exact Hs;
      (eapply users_consistent_same; [| |exact Hs]; cbn; [reflexivity|lia]).
  - unfold post_withdraw.
    repeat case_match; try exact Hs;
      (eapply users_consistent_same; [| |exact Hs]; cbn; [reflexivity|lia]).
  - exact Hs.
  - exact Hs.
Qed.

Lemma reachable_users_consistent
    (Number_toString : number → string)
    (castString_other : value → option string) (s : db) :
  reachable Number_toString castString_other s → users_consistent s.
Proof.
  induction 1 as [|now r s _ IH].
  - intros i u Hiu. cbn in Hiu. rewrite lookup_empty in Hiu. discriminate.
  - apply users_consistent_handle, IH.
Qed.

(** X10: on a reachable store, [POST /users] with a non-empty string
    name answers 201 with the new user, stored under a fresh [_id]: a
    [GET /users/:id] on that id right afterwards answers 200 with the same
    user, every user stored before is still stored unchanged, and the
    collection has grown by exactly one. *)
Theorem post_users_then_get
    (Number_toString : number → string)
    (castString_other : value → option string)
    (body : gmap string value) (s : db) (name : string) :
  reachable Number_toString castString_other s →
  get body "name" = VString name →
  name ≠ "" →
  let user := {| User._id := next_id s; User.name := Some name |} in
  let after := post_users castString_other body s in
  after.1 = Respond 201 (Json_user user)
  ∧ get_user (Some (next_id s)) after.2
    = (Respond 200 (Json_user user), after.2)
  ∧ (∀ i u, users s !! i = Some u → users after.2 !! i = Some u)
  ∧ size (users after.2) = S (size (users s)).
Proof.
  intros Hreach Hbody Hname user after.
  pose proof (reachable_users_consistent _ _ _ Hreach) as Hs.
  assert (users s !! next_id s = None) as Hfresh.
  { destruct (users s !! next_id s) as [u|] eqn:Hu; [|reflexivity].
    destruct (Hs _ _ Hu) as [_ Hlt]. lia. }
  assert (after
          = (Respond 201 (Json_user user),
             set_users (<[next_id s := user]> (users s)) (fresh s))) as ->.
  { subst after. unfold post_users. rewrite Hbody. cbn [castString].
    unfold User.validate. cbn [User.name].
    rewrite bool_decide_eq_false_2 by exact Hname. reflexivity. }
  cbn [fst snd]. split; [reflexivity|]. split; [|split].
  - unfold get_user. cbn [users set_users].
    rewrite lookup_insert_eq. reflexivity.
  - intros i u Hiu. cbn [users set_users fresh].
    rewrite lookup_insert_ne; [exact Hiu|]. congruence.
  - cbn [users set_users fresh]. apply map_size_insert_None, Hfresh.
Qed.

(** X11: [DELETE /users/:id] on a stored user answers 200 "User deleted"
    and removes that user and no other; afterwards [GET], [PUT] (with a
    string name) and [DELETE] on the same id all answer 404
    "User not found" and change nothing; the transactions are never
    touched. *)
Theorem delete_user_then_not_found
    (castString_other : value → option string)
    (i : ObjectId) (s : db) :
  is_Some (users s !! i) →
  let after := delete_user (Some i) s in
  let not_found := Respond 404 (Json_error "User not found") in
  after.1 = Respond 200 (Json_message "User deleted")
  ∧ (∀ j, j ≠ i → users after.2 !! j = users s !! j)
  ∧ size (users s) = S (size (users after.2))
  ∧ transactions after.2 = transactions s
  ∧ get_user (Some i) after.2 = (not_found, after.2)
  ∧ delete_user (Some i) after.2 = (not_found, after.2)
  ∧ (∀ body name, get body "name" = VString name →
       put_user castString_other (Some i) body after.2
       = (not_found, after.2)).
Proof.
  intros [u Hu] after not_found.
  assert (after = (Respond 200 (Json_message "User deleted"),
                   set_users (delete i (users s)) s)) as ->.
  { subst after. unfold delete_user. rewrite Hu. reflexivity. }
  subst not_found. cbn [fst snd].
  set (s' := set_users (delete i (users s)) s).
  assert (users s' !! i = None) as Hgone.
  { subst s'. cbn [users set_users]. apply lookup_delete_eq. }
  split; [reflexivity|]. split; [|split; [|split; [|split; [|split]]]].
  - intros j Hj. subst s'. cbn [users set_users].
    apply lookup_delete_ne. congruence.
  - subst s'. cbn [users set_users]. rewrite map_size_delete, Hu.
    pose proof (map_size_ne_0_lookup_2 (users s) i (mk_is_Some _ _ Hu)). lia.
  - reflexivity.
  - unfold get_user. rewrite Hgone. reflexivity.
  - unfold delete_user. rewrite Hgone. reflexivity.
  - intros body name Hbody. unfold put_user.
    rewrite Hbody. cbn [castString]. rewrite Hgone. reflexivity.
Qed.

(** X12: [PUT /users/:id] on a stored user with a string name answers 200
    with that user under the same [_id] and the new name; a
    [GET /users/:id] right afterwards answers the same user; no other
    user, the number of users and the transactions are unchanged. *)
Theorem put_user_renames
    (castString_other : value → option string)
    (i : ObjectId) (body : gmap string value) (name : string) (s : db) :
  is_Some (users s !! i) →
  get body "name" = VString name →
  let user := {| User._id := i; User.name := Some name |} in
  let after := put_user castString_other (Some i) body s in
  after.1 = Respond 200 (Json_user user)
  ∧ get_user (Some i) after.2 = (Respond 200 (Json_user user), after.2)
  ∧ (∀ j, j ≠ i → users after.2 !! j = users s !! j)
  ∧ size (users after.2) = size (users s)
  ∧ transactions after.2 = transactions s.
Proof.
  intros [old Hold] Hbody user after. subst after.
  unfold put_user. rewrite Hbody. cbn [castString]. rewrite Hold.
  cbn [fst snd]. fold user.
  split; [reflexivity|]. split; [|split; [|split]].
  - unfold get_user. cbn [users set_users].
    rewrite lookup_insert_eq. reflexivity.
  - intros j Hj. cbn [users set_users]. apply lookup_insert_ne. congruence.
  - cbn [users set_users].
    rewrite <- (insert_delete_eq (users s)).
    rewrite map_size_insert_None by apply lookup_delete_eq.
    rewrite map_size_delete, Hold.
    pose proof (map_size_ne_0_lookup_2 (users s) i (mk_is_Some _ _ Hold)).
    lia.
  - reflexivity.
Qed.

Lemma users_listing_member (s : db) (u : User.t) :
  users_consistent s →
  u ∈ (map_to_list (users s)).*2 ↔ users s !! User._id u = Some u.
Proof.
  intros Hs. rewrite list_elem_of_fmap. split.
  - intros ([i u'] & -> & Hin). cbn.
    apply elem_of_map_to_list in Hin.
    destruct (Hs _ _ Hin) as [-> _]. exact Hin.
  - intros Hu. exists (User._id u, u). split; [reflexivity|].
    apply elem_of_map_to_list. exact Hu.
Qed.

(** X13: on a reachable store [GET /users] answers 200 with a list that
    names every stored user exactly once: it has no duplicates, as many
    entries as the collection, and a user is in it exactly when it is
    stored under its own [_id]; the store is left as it is. *)
Theorem get_users_lists_each_once
    (Number_toString : number → string)
    (castString_other : value → option string) (s : db) :
  reachable Number_toString castString_other s →
  ∃ listing,
    get_users s = (Respond 200 (Json_users listing), s)
    ∧ NoDup listing
    ∧ length listing = size (users s)
    ∧ ∀ u, u ∈ listing ↔ users s !! User._id u = Some u.
Proof.
  intros Hreach.
  pose proof (reachable_users_consistent _ _ _ Hreach) as Hs.
  exists (map_to_list (users s)).*2.
  split; [reflexivity|]. split; [|split].
  - apply NoDup_fmap_2_strong; [|apply NoDup_map_to_list].
    intros [i u] [j v] Hi Hj Heq. cbn in Heq. subst v.
    apply elem_of_map_to_list in Hi, Hj.
    destruct (Hs _ _ Hi) as [<- _]. destruct (Hs _ _ Hj) as [<- _].
    reflexivity.
  - rewrite length_fmap. apply length_map_to_list.
  - intros u. apply users_listing_member, Hs.
Qed.

(** X14: on a reachable store, whenever [GET /users/:id] answers with a
    user, the status is 200, the user carries the requested [_id] and is
    the one stored under it, so it is also among those that [GET /users]
    lists; the store is left as it is. *)
Theorem get_user_returns_requested
    (Number_toString : number → string)
    (castString_other : value → option string)
    (i : ObjectId) (s : db) (status : nat) (u : User.t) :
  reachable Number_toString castString_other s →
  (get_user (Some i) s).1 = Respond status (Json_user u) →
  status = 200
  ∧ User._id u = i
  ∧ users s !! i = Some u
  ∧ u ∈ (map_to_list (users s)).*2
  ∧ (get_user (Some i) s).2 = s.
Proof.
  intros Hreach.
  pose proof (reachable_users_consistent _ _ _ Hreach) as Hs.
  unfold get_user. destruct (users s !! i) as [u'|] eqn:Hu; [|discriminate].
  cbn [fst snd]. intros [= <- <-].
  destruct (Hs _ _ Hu) as [Hid _].
  repeat split; try assumption.
  apply users_listing_member; [exact Hs|]. rewrite Hid. exact Hu.
Qed.

(** ** Emptying and clearing the account *)

(** X15: a reachable account whose amounts are whole numbers that add up
    to less than [2^53] and whose balance is positive can be emptied but
    not overdrawn: withdrawing exactly the balance is accepted and leaves
    the balance of [GET /balance] at 0, after which no withdrawal,
    whatever its body, is accepted. *)
Theorem withdraw_all_then_refused
    (Number_toString : number → string)
    (castString_other : value → option string)
    (now : nat) (body : gmap string value) (s : db) (b : number) :
  reachable Number_toString castString_other s →
  small_whole_amounts (transactions s) →
  balance (transactions s) = b →
  lt zero b = true →
  get body "amount" = VNumber b →
  let after := post_withdraw Number_toString now body s in
  after.1
  = Respond 200 (Json_message ("Withdrew $" +:+ Number_toString b))
  ∧ (get_balance after.2).1 = Respond 200 (Json_balance zero)
  ∧ ∀ now' body' p,
      (post_withdraw Number_toString now' body' after.2).1 ≠ Respond 200 p.
Proof.
  intros Hreach Hsw Hb Hpos Hbody after.
  destruct (reachable_store_invariant _ _ _ Hreach) as (_ & Henum & _).
  pose proof (zall_enum _ Henum) as Hall.
  pose proof Hsw as [Hw Hlt]%small_whole_zall.
  pose proof (zkind_bounds "deposit" _ (whole_woi _ Hw)) as HD.
  pose proof (zkind_bounds "withdrawal" _ (whole_woi _ Hw)) as HW.
  rewrite (balance_small_whole _ Hsw) in Hb.
  set (z := (zkind "deposit" (transactions s)
             - zkind "withdrawal" (transactions s))%Z) in *.
  subst b. unfold zero in Hpos. rewrite lt_of_Z in Hpos.
  apply Z.ltb_lt in Hpos.
  assert (currentBalance (transactions s) = of_Z z) as Hcur.
  { rewrite currentBalance_eq_balance_small_whole by assumption.
    apply balance_small_whole, Hsw. }
  assert (lt zero (of_Z z) = true) as Hpos'.
  { unfold zero. rewrite lt_of_Z. apply Z.ltb_lt, Hpos. }
  assert (le (of_Z z) (currentBalance (transactions s)) = true) as Hle.
  { rewrite Hcur, le_of_Z. apply Z.leb_le. lia. }
  set (wd := {| Transaction._id := next_id s;
                Transaction.type := "withdrawal";
                Transaction.amount := of_Z z;
                Transaction.date := now |}).
  assert (after
          = (Respond 200
               (Json_message ("Withdrew $" +:+ Number_toString (of_Z z))),
             set_transactions (transactions s ++ [wd]) (fresh s))) as ->.
  { subst after. apply post_withdraw_accepts; assumption. }
  cbn [fst snd].
  destruct (whole_double_below z) as [Hwz Hdz]; [unfold z; lia|].
  assert (Forall (λ doc, whole (Transaction.amount doc))
            (transactions s ++ [wd])) as Hw'.
  { apply Forall_app. split; [exact Hw|]. repeat constructor. exact Hwz. }
  assert (zkind "deposit" (transactions s ++ [wd])
          = zkind "deposit" (transactions s)) as HD'.
  { apply zkind_snoc_other. discriminate. }
  assert (zkind "withdrawal" (transactions s ++ [wd])
          = (zkind "withdrawal" (transactions s) + z)%Z) as HW'.
  { rewrite zkind_snoc_same by reflexivity. unfold wd.
    cbn [Transaction.amount]. rewrite int_of_of_Z. reflexivity. }
  assert (zall (transactions s ++ [wd]) = (zall (transactions s) + z)%Z)
    as Hall'.
  { rewrite zall_snoc. unfold wd. cbn [Transaction.amount].
    rewrite int_of_of_Z. reflexivity. }
  split; [reflexivity|]. split.
  - unfold get_balance. cbn [fst transactions set_transactions fresh].
    rewrite balance_whole, HD', HW';
      [|exact Hw'|rewrite HD'; lia|rewrite HW'; unfold z; lia].
    do 2 f_equal. unfold zero. f_equal. unfold z. lia.
  - intros now' body' p. apply post_withdraw_at_zero.
    cbn [transactions set_transactions fresh].
    rewrite currentBalance_whole.
    + rewrite HD', Hall'. unfold zero. f_equal. unfold z. lia.
    + exact Hw'.
    + apply Forall_app. split; [apply small_whole_double, Hsw|].
      repeat constructor. exact Hdz.
    + rewrite Hall'. pose proof (zall_below _ Hlt) as Hbig.
      assert (2 ^ 54 ≤ 2 ^ 1023)%Z by (apply Z.pow_le_mono_r; lia).
      unfold z. lia.
    + rewrite HD', Hall'. unfold z. lia.
Qed.

(** X16: a clear forgets the history: after [DELETE /transactions], a
    deposit of a positive amount makes [GET /balance] answer exactly that
    amount and [GET /transactions] list exactly that one deposit, whatever
    the store held before. *)
Theorem clear_then_deposit
    (Number_toString : number → string) (now : nat)
    (body : gmap string value) (s : db) (amount : number) :
  get body "amount" = VNumber amount →
  lt zero amount = true →
  let cleared := (delete_transactions s).2 in
  let after := (post_deposit Number_toString now body cleared).2 in
  (get_balance after).1 = Respond 200 (Json_balance amount)
  ∧ (get_transactions after).1
    = Respond 200
        (Json_transactions
           [ {| Transaction._id := next_id s;
                Transaction.type := "deposit";
                Transaction.amount := amount;
                Transaction.date := now |} ])
  ∧ users after = users s.
Proof.
  intros Hbody Hpos cleared after. subst after cleared.
  rewrite (post_deposit_accepts _ _ _ _ _ Hbody Hpos).
  unfold delete_transactions, get_balance, get_transactions.
  cbn [fst snd transactions set_transactions fresh users next_id app].
  split; [|split; reflexivity].
  pose proof (get_number_double _ _ _ Hbody) as Hdbl.
  pose proof (lt_zero_not_nan _ Hpos) as Hnan.
  rewrite balance_unfold by (repeat constructor; exact Hpos).
  cbn [sum_of_kind Transaction.type Transaction.amount].
  rewrite bool_decide_eq_true_2 by reflexivity.
  rewrite bool_decide_eq_false_2 by discriminate.
  rewrite exact_add_zero_r, round_number_zero, Hdbl.
  rewrite (or_zero_not_nan amount Hnan), (or_zero_not_nan zero) by discriminate.
  unfold sub. rewrite neg_zero, exact_add_zero_r, Hdbl. reflexivity.
Qed.

(** ** The further properties at concrete stores *)

Lemma store_eddie_reachable :
  reachable Samples.show Samples.no_cast store_eddie.
Proof. apply after_reachable. Qed.

Lemma deposit_accepted_witness :
  let after :=
    post_deposit Samples.show 1 (Samples.amount_body (of_Z 50)) store_100 in
  after.1 = Respond 200 (Json_message "Deposited $50")
  ∧ (get_balance after.2).1 = Respond 200 (Json_balance (of_Z 150)).
Proof.
  intros after.
  destruct (deposit_accepted Samples.show 1
              (Samples.amount_body (of_Z 50)) store_100 (of_Z 50))
    as (Hresp & Hcoll & _ & Hbal).
  - vm_compute. reflexivity.
  - vm_compute. reflexivity.
  - fold after in Hresp, Hcoll, Hbal. split; [exact Hresp|].
    rewrite Hbal; [vm_compute; reflexivity|].
    rewrite Hcoll, store_100_transactions.
    split; [|vm_compute; reflexivity]. repeat constructor.
    + exists 100%Z. split; [lia|reflexivity].
    + exists 50%Z. split; [lia|reflexivity].
Defined.

Lemma reachable_transactions_valid_witness :
  reachable Samples.show Samples.no_cast store_70
  ∧ ∀ doc, doc ∈ transactions store_70 → Transaction.validate doc = true.
Proof.
  split; [exact store_70_reachable|]. intros doc Hdoc.
  apply (reachable_transactions_valid _ _ store_70 store_70_reachable doc
           Hdoc).
Defined.

Lemma reachable_withdrawals_within_deposits_witness :
  reachable Samples.show Samples.no_cast store_70
  ∧ small_whole_amounts (transactions store_70)
  ∧ le (of_Z 30) (of_Z 100) = true.
Proof.
  split; [exact store_70_reachable|]. split; [exact store_70_small_whole|].
  pose proof (reachable_withdrawals_within_deposits _ _ store_70
                store_70_reachable store_70_small_whole) as H.
  vm_compute in H. vm_compute. exact H.
Defined.

Lemma reachable_currentBalance_witness :
  reachable Samples.show Samples.no_cast store_70
  ∧ currentBalance (transactions store_70) = of_Z 70.
Proof.
  split; [exact store_70_reachable|].
  rewrite (reachable_currentBalance _ _ store_70 store_70_reachable);
    [vm_compute; reflexivity|].
  apply small_whole_small_woi, store_70_small_whole.
Defined.

Lemma withdraw_refused_at_zero_witness :
  currentBalance (transactions empty_db) = zero
  ∧ (post_withdraw Samples.show 0 (Samples.amount_body (of_Z 5)) empty_db).1
    ≠ Respond 200 (Json_message "Withdrew $5").
Proof.
  split; [reflexivity|].
  apply (withdraw_refused_at_zero Samples.show 0
           (Samples.amount_body (of_Z 5)) empty_db).
  reflexivity.
Defined.

Lemma deposit_then_withdraw_restores_witness :
  let s1 :=
    (post_deposit Samples.show 2 (Samples.amount_body (of_Z 30)) store_70).2 in
  let after :=
    post_withdraw Samples.show 3 (Samples.amount_body (of_Z 30)) s1 in
  after.1 = Respond 200 (Json_message "Withdrew $30")
  ∧ length (transactions after.2) = 4
  ∧ balance (transactions after.2) = of_Z 70.
Proof.
  destruct (deposit_then_withdraw_restores Samples.show Samples.no_cast 2 3
              (Samples.amount_body (of_Z 30)) store_70 (of_Z 30))
    as (Hresp & Hlen & Hbal).
  - exact store_70_reachable.
  - vm_compute. reflexivity.
  - vm_compute. reflexivity.
  - rewrite (post_deposit_accepts Samples.show 2 _ store_70 (of_Z 30))
      by (vm_compute; reflexivity).
    cbn [snd transactions set_transactions fresh].
    rewrite store_70_transactions.
    split; [|vm_compute; reflexivity]. repeat constructor.
    + exists 100%Z. split; [lia|reflexivity].
    + exists 30%Z. split; [lia|reflexivity].
    + exists 30%Z. split; [lia|reflexivity].
  - split; [exact Hresp|]. split; [exact Hlen|].
    rewrite Hbal. vm_compute. reflexivity.
Defined.

Lemma post_users_then_get_witness :
  let user := {| User._id := 0%N; User.name := Some "Eddie" |} in
  let after := post_users Samples.no_cast (name_body "Eddie") empty_db in
  after.1 = Respond 201 (Json_user user)
  ∧ get_user (Some 0%N) after.2 = (Respond 200 (Json_user user), after.2)
  ∧ size (users after.2) = 1.
Proof.
  intros user after.
  destruct (post_users_then_get Samples.show Samples.no_cast
              (name_body "Eddie") empty_db "Eddie")
    as (Hresp & Hget & _ & Hsize).
  - apply reachable_empty.
  - reflexivity.
  - discriminate.
  - split; [exact Hresp|]. split; [exact Hget|exact Hsize].
Defined.

Lemma delete_user_then_not_found_witness :
  let after := delete_user (Some 0%N) store_eddie in
  after.1 = Respond 200 (Json_message "User deleted")
  ∧ get_user (Some 0%N) after.2
    = (Respond 404 (Json_error "User not found"), after.2).
Proof.
  intros after.
  destruct (delete_user_then_not_found Samples.no_cast 0%N store_eddie)
    as (Hresp & _ & _ & _ & Hget & _).
  - vm_compute. eexists. reflexivity.
  - split; [exact Hresp|exact Hget].
Defined.

Lemma put_user_renames_witness :
  let user := {| User._id := 0%N; User.name := Some "Ed" |} in
  let after := put_user Samples.no_cast (Some 0%N) (name_body "Ed")
                 store_eddie in
  after.1 = Respond 200 (Json_user user)
  ∧ get_user (Some 0%N) after.2 = (Respond 200 (Json_user user), after.2).
Proof.
  intros user after.
  destruct (put_user_renames Samples.no_cast 0%N (name_body "Ed") "Ed"
              store_eddie)
    as (Hresp & Hget & _).
  - vm_compute. eexists. reflexivity.
  - reflexivity.
  - split; [exact Hresp|exact Hget].
Defined.

Lemma get_users_lists_each_once_witness :
  reachable Samples.show Samples.no_cast store_eddie
  ∧ ∃ listing,
      get_users store_eddie = (Respond 200 (Json_users listing), store_eddie)
      ∧ length listing = 1.
Proof.
  split; [exact store_eddie_reachable|].
  destruct (get_users_lists_each_once _ _ store_eddie store_eddie_reachable)
    as (listing & Hresp & _ & Hlen & _).
  exists listing. split; [exact Hresp|]. rewrite Hlen. reflexivity.
Defined.

Lemma get_user_returns_requested_witness :
  reachable Samples.show Samples.no_cast store_eddie
  ∧ User._id {| User._id := 0%N; User.name := Some "Eddie" |} = 0%N
  ∧ users store_eddie !! 0%N
    = Some {| User._id := 0%N; User.name := Some "Eddie" |}.
Proof.
  split; [exact store_eddie_reachable|].
  destruct (get_user_returns_requested Samples.show Samples.no_cast 0%N
              store_eddie 200
              {| User._id := 0%N; User.name := Some "Eddie" |}
              store_eddie_reachable)
    as (_ & Hid & Hstored & _).
  - reflexivity.
  - split; [exact Hid|exact Hstored].
Defined.

Lemma withdraw_all_then_refused_witness :
  let after :=
    post_withdraw Samples.show 2 (Samples.amount_body (of_Z 70)) store_70 in
  after.1 = Respond 200 (Json_message "Withdrew $70")
  ∧ (get_balance after.2).1 = Respond 200 (Json_balance zero)
  ∧ (post_withdraw Samples.show 3 (Samples.amount_body (of_Z 1)) after.2).1
    ≠ Respond 200 (Json_message "Withdrew $1").
Proof.
  intros after.
  destruct (withdraw_all_then_refused Samples.show Samples.no_cast 2
              (Samples.amount_body (of_Z 70)) store_70 (of_Z 70))
    as (Hresp & Hbal & Hno).
  - exact store_70_reachable.
  - exact store_70_small_whole.
  - vm_compute. reflexivity.
  - vm_compute. reflexivity.
  - vm_compute. reflexivity.
  - split; [exact Hresp|]. split; [exact Hbal|]. apply Hno.
Defined.

Lemma clear_then_deposit_witness :
  let cleared := (delete_transactions store_70).2 in
  let after :=
    (post_deposit Samples.show 2 (Samples.amount_body (of_Z 5)) cleared).2 in
  (get_balance after).1 = Respond 200 (Json_balance (of_Z 5))
  ∧ users after = users store_70.
Proof.
  intros cleared after.
  destruct (clear_then_deposit Samples.show 2 (Samples.amount_body (of_Z 5))
              store_70 (of_Z 5))
    as (Hbal & _ & Husers).
  - vm_compute. reflexivity.
  - vm_compute. reflexivity.
  - split; [exact Hbal|exact Husers].
Defined.
